(** * Zeus superblock header: a shallow embedding and its properties

    Source: [src/libos/librdma/mem/include/zeus/zeussuperblockheader.h],
    class [ZeusSuperblockHeaderHelper].

    Conventions of the embedding:
    - [size_t], [uint64_t] and pointers are [Z] reduced modulo [2^64];
      [unsigned int] is [Z] reduced modulo [2^32];
    - [assert] is modelled as active (a debug build): a failed assertion
      yields [Fatal], which also stands for the process-terminating
      [assert(0)] of [pin] and [unpin];
    - the calls into the verbs library ([ibv_reg_mr], [ibv_dereg_mr]) are
      recorded as a trace of events;
    - the fields [_theLock], [_owner], [_prev], [_next] and [_padding] are
      never read by the operations studied here and are left out. *)

From Stdlib Require Import ZArith Lia List Bool.
From stdpp Require Import base list.

Local Open Scope Z_scope.

(** ** Machine integers *)

Definition u64 (x : Z) : Z := x mod 2 ^ 64.
Definition u32 (x : Z) : Z := x mod 2 ^ 32.

(** [~x] on a [uint64_t]. *)
Definition not64 (x : Z) : Z := u64 (Z.lnot x).

(** ** Outcome of an operation: a value, or a failed assertion *)

Inductive result (A : Type) : Type :=
| OK (a : A)
| Fatal.
Arguments OK {A} a.
Arguments Fatal {A}.

#[global] Instance result_bind : MBind result := fun A B k m =>
  match m with
  | OK a => k a
  | Fatal => Fatal
  end.

#[global] Instance result_ret : MRet result := fun A a => OK a.

Definition assert (b : bool) : result unit := if b then OK tt else Fatal.

(** ** Collaborators that live outside the header file *)

Module FreeSLList.

(** Modelled from the spec: the class [FreeSLList] (Heap Layers, reached
    through [heaplayers.h], absent from src/) is the intrusive singly-linked
    Free List: [insert] pushes a slot at the head, [get] pops the head and
    returns the null pointer when the list is empty, [clear] empties it.
    The list of entries is kept explicitly, head first; it stands for the
    linked one as long as no entry is on it twice, which holds in every
    reachable state. *)
Definition t := list Z.

Definition empty : t := [].
Definition insert (e : Z) (l : t) : t := e :: l.
Definition get (l : t) : Z * t :=
  match l with
  | [] => (0, [])
  | e :: rest => (e, rest)
  end.
Definition clear (l : t) : t := [].

End FreeSLList.

Module HL.

(** Modelled from the spec: [HL::align<Alignment>] (Heap Layers, absent
    from src/) gives the aligned address at or above its argument,
    [(v + (Alignment-1)) & ~(Alignment-1)] on [size_t]. *)
Definition align (alignment v : Z) : Z :=
  Z.land (u64 (v + (alignment - 1))) (not64 (alignment - 1)).

End HL.

(** The process-wide hardware context: what [rdma_get_pd()] returns (0 is
    [NULL]) and the handle [ibv_reg_mr] hands back for a protection domain,
    an address, a length and access flags. *)
Record Hardware : Type := {
  rdma_get_pd : Z;
  ibv_reg_mr : Z -> Z -> Z -> Z -> Z
}.

(** Access flags of [<infiniband/verbs.h>]. *)
Definition IBV_ACCESS_LOCAL_WRITE : Z := 1.
Definition IBV_ACCESS_REMOTE_WRITE : Z := 2.

Inductive Event : Type :=
| Ev_ibv_reg_mr (pd addr len access : Z)
| Ev_ibv_dereg_mr (mr : Z).

(** ** The control block *)

Definition MAX_PINNED : nat := 100.
Definition IN_USE : Z := 1.
Definition Alignment : Z := 16.
Definition MAGIC_NUMBER : Z := 0xcafed00d.

Record Header : Type := mkHeader {
  this : Z;                         (* address of the control block itself *)
  _magicNumber : Z;
  _objectSize : Z;
  _objectSizeIsPowerOfTwo : bool;
  _totalObjects : Z;
  _reapableObjects : Z;
  _objectsFree : Z;
  _start : Z;
  _position : Z;
  _pinned : list Z;
  _mr : Z;
  _freeList : FreeSLList.t
}.

Definition set_reapableObjects (s : Header) (v : Z) : Header :=
  mkHeader (this s) (_magicNumber s) (_objectSize s) (_objectSizeIsPowerOfTwo s)
           (_totalObjects s) v (_objectsFree s) (_start s) (_position s)
           (_pinned s) (_mr s) (_freeList s).

Definition set_objectsFree (s : Header) (v : Z) : Header :=
  mkHeader (this s) (_magicNumber s) (_objectSize s) (_objectSizeIsPowerOfTwo s)
           (_totalObjects s) (_reapableObjects s) v (_start s) (_position s)
           (_pinned s) (_mr s) (_freeList s).

Definition set_position (s : Header) (v : Z) : Header :=
  mkHeader (this s) (_magicNumber s) (_objectSize s) (_objectSizeIsPowerOfTwo s)
           (_totalObjects s) (_reapableObjects s) (_objectsFree s) (_start s) v
           (_pinned s) (_mr s) (_freeList s).

Definition set_pinned (s : Header) (v : list Z) : Header :=
  mkHeader (this s) (_magicNumber s) (_objectSize s) (_objectSizeIsPowerOfTwo s)
           (_totalObjects s) (_reapableObjects s) (_objectsFree s) (_start s)
           (_position s) v (_mr s) (_freeList s).

Definition set_freeList (s : Header) (v : FreeSLList.t) : Header :=
  mkHeader (this s) (_magicNumber s) (_objectSize s) (_objectSizeIsPowerOfTwo s)
           (_totalObjects s) (_reapableObjects s) (_objectsFree s) (_start s)
           (_position s) (_pinned s) (_mr s) v.

(** [_pinned[i]]; the array has [MAX_PINNED] cells. *)
Definition pinned_at (s : Header) (i : nat) : Z := nth i (_pinned s) 0.

(** The shape shared by the three loops over the Pin Table,
    [for (int i = 0; i < MAX_PINNED; i++) if (hit (_pinned[i])) { ...; return; }]:
    the index of the first cell that satisfies [hit], if any. *)
Fixpoint scan_from (hit : Z -> bool) (tbl : list Z) (i fuel : nat) : option nat :=
  match fuel with
  | O => None
  | S fuel' => if hit (nth i tbl 0) then Some i
               else scan_from hit tbl (S i) fuel'
  end.

Definition scan (hit : Z -> bool) (tbl : list Z) : option nat :=
  scan_from hit tbl 0 MAX_PINNED.

(** *** Constructor and destructor *)

(** [mem_pinned] is what the memory under [_pinned] holds when the
    constructor runs in place: the constructor does not write the array.
    With [sz = 0] the initializer of [_totalObjects] divides by zero. *)
Definition construct (hw : Hardware) (this_ sz bufferSize start : Z)
    (mem_pinned : list Z) : result (Header * list Event) :=
  if sz =? 0 then Fatal else
  let totalObjects := u32 (bufferSize / sz) in
  let s := mkHeader this_
                    (Z.lxor MAGIC_NUMBER this_)
                    sz
                    ((Z.land sz (u64 (sz - 1)) =? 0) && negb (sz =? 0))
                    totalObjects
                    totalObjects
                    totalObjects
                    start
                    start
                    mem_pinned
                    0
                    FreeSLList.empty in
  assert (HL.align Alignment start =? start);;
  assert (Alignment <=? _objectSize s);;
  assert ((_totalObjects s =? 1) || (_objectSize s mod Alignment =? 0));;
  if negb (rdma_get_pd hw =? 0) then
    let access := Z.lor IBV_ACCESS_LOCAL_WRITE IBV_ACCESS_REMOTE_WRITE in
    let mr := ibv_reg_mr hw (rdma_get_pd hw) start bufferSize access in
    OK (mkHeader (this s) (_magicNumber s) (_objectSize s)
                 (_objectSizeIsPowerOfTwo s) (_totalObjects s)
                 (_reapableObjects s) (_objectsFree s) (_start s)
                 (_position s) (_pinned s) mr (_freeList s),
        [Ev_ibv_reg_mr (rdma_get_pd hw) start bufferSize access])
  else OK (s, []).

Definition isValid (s : Header) : bool :=
  _magicNumber s =? Z.lxor MAGIC_NUMBER (this s).

Definition clear (s : Header) : result Header :=
  assert (isValid s);;
  let s := set_freeList s (FreeSLList.clear (_freeList s)) in
  let s := set_objectsFree s (_totalObjects s) in
  let s := set_reapableObjects s (_totalObjects s) in
  OK (set_position s (HL.align Alignment (_start s))).

Definition destroy (s : Header) : result (Header * list Event) :=
  s ← clear s;
  OK (s, [Ev_ibv_dereg_mr (_mr s)]).

(** *** Address arithmetic *)

Definition normalize (s : Header) (ptr : Z) : result Z :=
  assert (isValid s);;
  let offset := u64 (ptr - _start s) in
  if _objectSizeIsPowerOfTwo s
  then OK (u64 (ptr - Z.land offset (u64 (_objectSize s - 1))))
  else OK (u64 (ptr - offset mod _objectSize s)).

Definition getSize (s : Header) (ptr : Z) : result Z :=
  assert (isValid s);;
  let offset := u64 (ptr - _start s) in
  if _objectSizeIsPowerOfTwo s
  then OK (u64 (_objectSize s - Z.land offset (u64 (_objectSize s - 1))))
  else OK (u64 (_objectSize s - offset mod _objectSize s)).

(** *** Allocation *)

Definition reapAlloc (s : Header) : result (Z * Header) :=
  assert (isValid s);;
  assert (negb (_position s =? 0));;
  if 0 <? _reapableObjects s then
    let ptr := _position s in
    let s := set_position s (u64 (ptr + _objectSize s)) in
    let s := set_reapableObjects s (u32 (_reapableObjects s - 1)) in
    let s := set_objectsFree s (u32 (_objectsFree s - 1)) in
    assert (ptr mod Alignment =? 0);;
    OK (ptr, s)
  else OK (0, s).

Definition freeListAlloc (s : Header) : result (Z * Header) :=
  assert (isValid s);;
  let '(ptr, l) := FreeSLList.get (_freeList s) in
  let s := set_freeList s l in
  if negb (ptr =? 0) then
    assert (1 <=? _objectsFree s);;
    OK (ptr, set_objectsFree s (u32 (_objectsFree s - 1)))
  else OK (ptr, s).

Definition malloc (s : Header) : result (Z * Header) :=
  assert (isValid s);;
  '(ptr, s) ← reapAlloc s;
  assert ((ptr =? 0) || (ptr mod Alignment =? 0));;
  '(ptr, s) ← (if ptr =? 0 then
                  '(ptr, s) ← freeListAlloc s;
                  assert ((ptr =? 0) || (ptr mod Alignment =? 0));;
                  OK (ptr, s)
                else OK (ptr, s));
  (if negb (ptr =? 0) then
     sz ← getSize s ptr;
     assert (_objectSize s <=? sz);;
     assert (ptr mod Alignment =? 0)
   else OK tt);;
  OK (ptr, s).

(** *** Release, pin and unpin *)

(** The address part of a Pin Table cell, [_pinned[i] & ~(uint64_t)IN_USE]. *)
Definition entry_addr (e : Z) : Z := Z.land e (not64 IN_USE).

(** The in-use flag of a Pin Table cell, [_pinned[i] & IN_USE]. *)
Definition entry_flag (e : Z) : Z := Z.land e IN_USE.

Definition free (s : Header) (ptr : Z) : result Header :=
  assert (ptr mod Alignment =? 0);;
  assert (isValid s);;
  match scan (fun e => entry_addr e =? ptr) (_pinned s) with
  | Some i =>
      (* [assert(_pinned[i] & IN_USE == 1)] parses as
         [_pinned[i] & (IN_USE == 1)], that is [_pinned[i] & 1]. *)
      assert (negb (Z.land (pinned_at s i) (if IN_USE =? 1 then 1 else 0) =? 0));;
      OK (set_pinned s (<[i := Z.land (pinned_at s i) (not64 IN_USE)]> (_pinned s)))
  | None =>
      let s := set_freeList s (FreeSLList.insert ptr (_freeList s)) in
      let s := set_objectsFree s (u32 (_objectsFree s + 1)) in
      if _objectsFree s =? _totalObjects s then clear s else OK s
  end.

Definition pin (s : Header) (ptr : Z) : result Header :=
  assert (isValid s);;
  _obj ← normalize s ptr;
  match scan (fun e => e =? 0) (_pinned s) with
  | Some i => OK (set_pinned s (<[i := Z.lor _obj IN_USE]> (_pinned s)))
  | None => Fatal
  end.

Definition unpin (s : Header) (ptr : Z) : result Header :=
  assert (isValid s);;
  _obj ← normalize s ptr;
  match scan (fun e => entry_addr e =? _obj) (_pinned s) with
  | Some i =>
      s ← (if entry_flag (pinned_at s i) =? 0 then
              let s := set_freeList s (FreeSLList.insert _obj (_freeList s)) in
              let s := set_objectsFree s (u32 (_objectsFree s + 1)) in
              if _objectsFree s =? _totalObjects s then clear s else OK s
            else OK s);
      OK (set_pinned s (<[i := 0]> (_pinned s)))
  | None => Fatal
  end.

(** *** Sequences of calls *)

Fixpoint mallocs (n : nat) (s : Header) : result (list Z * Header) :=
  match n with
  | O => OK ([], s)
  | S n' =>
      '(p, s) ← malloc s;
      '(ps, s) ← mallocs n' s;
      OK (p :: ps, s)
  end.

Fixpoint frees (ps : list Z) (s : Header) : result Header :=
  match ps with
  | [] => OK s
  | p :: ps' => s ← free s p; frees ps' s
  end.

Fixpoint pins (ps : list Z) (s : Header) : result Header :=
  match ps with
  | [] => OK s
  | p :: ps' => s ← pin s p; pins ps' s
  end.

(** A hardware context, and zero-filled memory for the Pin Table. *)
Definition no_hw : Hardware := {| rdma_get_pd := 0; ibv_reg_mr := fun _ _ _ _ => 0 |}.
Definition zeroed : list Z := repeat 0 MAX_PINNED.

(** ** Notions used by the statements *)

(** A cell that is occupied while its in-use flag is clear: the slot was
    released while pinned and awaits its [unpin]. *)
Definition is_deferred (e : Z) : bool := negb (e =? 0) && (entry_flag e =? 0).

Fixpoint deferred (tbl : list Z) : list Z :=
  match tbl with
  | [] => []
  | e :: rest => if is_deferred e then e :: deferred rest else deferred rest
  end.

(** Base address of slot [k]. *)
Definition slot (s : Header) (k : Z) : Z := _start s + k * _objectSize s.

(** [p] points into the slot region of the superblock. *)
Definition in_superblock (s : Header) (p : Z) : Prop :=
  _start s <= p < _start s + _totalObjects s * _objectSize s.

(** [p] is the base of a slot the Reap Cursor has already passed. *)
Definition used_slot (s : Header) (p : Z) : Prop :=
  exists k, 0 <= k < _totalObjects s - _reapableObjects s /\ p = slot s k.

(** What the constructor establishes about the fields no operation writes. *)
Record Wf (s : Header) : Prop := {
  wf_valid : isValid s = true;
  wf_size : 16 <= _objectSize s < 2 ^ 64;
  wf_pow2 : _objectSizeIsPowerOfTwo s =
            (Z.land (_objectSize s) (u64 (_objectSize s - 1)) =? 0)
            && negb (_objectSize s =? 0);
  wf_total : 0 <= _totalObjects s < 2 ^ 32;
  wf_start : 0 < _start s;
  wf_start_aligned : _start s mod 16 = 0;
  wf_fit : _start s + _totalObjects s * _objectSize s < 2 ^ 64;
  wf_align : _totalObjects s = 1 \/ _objectSize s mod 16 = 0
}.

(** Slots that left the Reap Cursor and are not back in it: the live
    allocations [live] (a ghost list kept by the caller), the Free List,
    and the deferred frees parked in the Pin Table. *)
Definition owned (s : Header) (live : list Z) : list Z :=
  live ++ _freeList s ++ deferred (_pinned s).

Record Inv (s : Header) (live : list Z) : Prop := {
  inv_wf : Wf s;
  inv_tbl_len : length (_pinned s) = MAX_PINNED;
  inv_tbl_range : forall i, 0 <= nth i (_pinned s) 0 < 2 ^ 64;
  inv_reap : 0 <= _reapableObjects s <= _totalObjects s;
  inv_pos : _position s = slot s (_totalObjects s - _reapableObjects s);
  inv_free : _objectsFree s = _reapableObjects s + Z.of_nat (length (_freeList s));
  inv_nodup : NoDup (owned s live);
  inv_slots : forall p, p ∈ owned s live -> used_slot s p;
  inv_count : Z.of_nat (length (owned s live)) = _totalObjects s - _reapableObjects s;
  inv_full : _objectsFree s = _totalObjects s ->
             _reapableObjects s = _totalObjects s /\ _freeList s = []
}.

(** The fields that no operation writes. *)
Definition same_consts (s s' : Header) : Prop :=
  this s' = this s /\ _magicNumber s' = _magicNumber s /\
  _objectSize s' = _objectSize s /\
  _objectSizeIsPowerOfTwo s' = _objectSizeIsPowerOfTwo s /\
  _totalObjects s' = _totalObjects s /\ _start s' = _start s /\ _mr s' = _mr s.

(** The state [clear] leaves behind. *)
Definition cleared (s : Header) : Header :=
  set_position
    (set_reapableObjects
       (set_objectsFree (set_freeList s []) (_totalObjects s))
       (_totalObjects s))
    (_start s).

(** The state after a slot was taken from the Reap Cursor. *)
Definition reaped (s : Header) : Header :=
  set_objectsFree
    (set_reapableObjects
       (set_position s (_position s + _objectSize s))
       (_reapableObjects s - 1))
    (_objectsFree s - 1).

(** The state after the head of the Free List was taken, [l] being its tail. *)
Definition popped (s : Header) (l : list Z) : Header :=
  set_objectsFree (set_freeList s l) (_objectsFree s - 1).

(** The state after [ptr] was inserted into the Free List. *)
Definition pushed (s : Header) (ptr : Z) : Header :=
  set_objectsFree (set_freeList s (FreeSLList.insert ptr (_freeList s)))
                  (_objectsFree s + 1).

(** Insertion followed by the full-drain test of [free] and [unpin]. *)
Definition reclaimed (s : Header) (ptr : Z) : Header :=
  if _objectsFree s + 1 =? _totalObjects s then cleared s else pushed s ptr.

(** The address [pin] and [unpin] look for. *)
Definition normalized (s : Header) (ptr : Z) : Z :=
  u64 (ptr - u64 (ptr - _start s) mod _objectSize s).

(** The calls a caller may issue, as a relation between states.  The ghost
    list holds the live allocations: addresses returned by [malloc] and not
    yet passed to [free].  [free] is given a live allocation; [pin] and
    [unpin] are given pointers into the slot region.  [pin_ok] is an extra
    discipline on [pin]. *)
Inductive steps (pin_ok : Header -> Z -> Prop) (s0 : Header) (live0 : list Z)
  : Header -> list Z -> Prop :=
| S_start : steps pin_ok s0 live0 s0 live0
| S_malloc_null s live s' :
    steps pin_ok s0 live0 s live -> malloc s = OK (0, s') ->
    steps pin_ok s0 live0 s' live
| S_malloc s live p s' :
    steps pin_ok s0 live0 s live -> malloc s = OK (p, s') -> p <> 0 ->
    steps pin_ok s0 live0 s' (p :: live)
| S_free s live live' p s' :
    steps pin_ok s0 live0 s live -> live ≡ₚ p :: live' -> free s p = OK s' ->
    steps pin_ok s0 live0 s' live'
| S_pin s live p s' :
    steps pin_ok s0 live0 s live -> in_superblock s p -> pin_ok s p ->
    pin s p = OK s' ->
    steps pin_ok s0 live0 s' live
| S_unpin s live p s' :
    steps pin_ok s0 live0 s live -> in_superblock s p -> unpin s p = OK s' ->
    steps pin_ok s0 live0 s' live.

(** A freshly constructed superblock: the constructor ran in place over
    zero-filled memory, on a buffer that fits the address space. *)
Definition constructed (s0 : Header) : Prop :=
  exists hw this_ sz bufferSize start evs,
    0 <= sz < 2 ^ 64 /\ 0 <= bufferSize < 2 ^ 64 /\
    0 < start /\ start + bufferSize < 2 ^ 64 /\
    construct hw this_ sz bufferSize start zeroed = OK (s0, evs).

(** The states a caller can bring a superblock to. *)
Definition reachable_with (pin_ok : Header -> Z -> Prop) (s : Header)
    (live : list Z) : Prop :=
  exists s0, constructed s0 /\ steps pin_ok s0 [] s live.

Definition reachable : Header -> list Z -> Prop :=
  reachable_with (fun _ _ => True).

(** The addresses the next calls to [malloc] hand out, in order: the slots
    ahead of the Reap Cursor, then the Free List from its head. *)
Definition reap_slots (s : Header) : list Z :=
  map (fun k => _position s + Z.of_nat k * _objectSize s)
      (seq 0 (Z.to_nat (_reapableObjects s))).

Definition avail (s : Header) : list Z := reap_slots s ++ _freeList s.

(** A superblock of 100 slots of 64 bytes, as the constructor leaves it. *)
Definition demo_block : Header :=
  mkHeader 1024 (Z.lxor MAGIC_NUMBER 1024) 64 true 100 100 100 4096 4096 zeroed 0 [].

(** [free_spec] follows the specification: the Pin Table is searched for
    [normalize(ptr)].  Everything else is as in [free]. *)
Definition free_spec (s : Header) (ptr : Z) : result Header :=
  assert (ptr mod Alignment =? 0);;
  assert (isValid s);;
  _obj ← normalize s ptr;
  match scan (fun e => entry_addr e =? _obj) (_pinned s) with
  | Some i =>
      assert (negb (Z.land (pinned_at s i) (if IN_USE =? 1 then 1 else 0) =? 0));;
      OK (set_pinned s (<[i := Z.land (pinned_at s i) (not64 IN_USE)]> (_pinned s)))
  | None =>
      let s := set_freeList s (FreeSLList.insert ptr (_freeList s)) in
      let s := set_objectsFree s (u32 (_objectsFree s + 1)) in
      if _objectsFree s =? _totalObjects s then clear s else OK s
  end.

(** Two allocations, the first one pinned. *)
Definition pinned_block : Header :=
  set_pinned (reaped (reaped demo_block)) (<[0%nat := 4097]> zeroed).

(** The slot addresses named by the occupied (non-zero) cells, in table
    order. *)
Fixpoint pinned_addrs (tbl : list Z) : list Z :=
  match tbl with
  | [] => []
  | e :: rest => if e =? 0 then pinned_addrs rest
                 else entry_addr e :: pinned_addrs rest
  end.

(** The Pin Table as C6 describes it. *)
Definition pin_table_distinct (s : Header) : Prop :=
  (length (pinned_addrs (_pinned s)) <= MAX_PINNED)%nat /\
  NoDup (pinned_addrs (_pinned s)).

(** The caller never pins a slot that already has an occupied cell. *)
Definition pin_fresh (s : Header) (ptr : Z) : Prop :=
  forall obj, normalize s ptr = OK obj -> obj ∉ pinned_addrs (_pinned s).

(** Under the discipline, the occupied cells name distinct slot bases. *)
Definition distinct_slot_bases (s : Header) : Prop :=
  NoDup (pinned_addrs (_pinned s)) /\
  forall a, a ∈ pinned_addrs (_pinned s) ->
            exists k, 0 <= k < _totalObjects s /\ a = _start s + k * _objectSize s.

(** The slot 4096 pinned twice. *)
Definition twice_pinned_block : Header :=
  set_pinned (reaped demo_block) (<[1%nat := 4097]> (<[0%nat := 4097]> zeroed)).

(** ** Accessors, and the further notions of the later sections *)

Definition getObjectSize (s : Header) : Z := _objectSize s.

Definition getTotalObjects (s : Header) : Z := _totalObjects s.

Definition getObjectsFree (s : Header) : Z := _objectsFree s.

Definition rdma_get_mr (s : Header) : Z := _mr s.

(** The control block seen at address [a] after its bytes were copied
    there: the fields are those of [s], the object is another one. *)
Definition copied_to (s : Header) (a : Z) : Header :=
  mkHeader a (_magicNumber s) (_objectSize s) (_objectSizeIsPowerOfTwo s)
           (_totalObjects s) (_reapableObjects s) (_objectsFree s) (_start s)
           (_position s) (_pinned s) (_mr s) (_freeList s).

(** A superblock of two slots, both allocated. *)
Definition full_block : Header :=
  mkHeader 1024 (Z.lxor MAGIC_NUMBER 1024) 64 true 2 0 0 4096 4224 zeroed 0 [].

(** A superblock of three slots, all allocated. *)
Definition full_block_3 : Header :=
  mkHeader 1024 (Z.lxor MAGIC_NUMBER 1024) 64 true 3 0 0 4096 4288 zeroed 0 [].

(** Three slots allocated, then the middle one released. *)
Definition released_block : Header := pushed full_block_3 4160.

(** The fresh superblock with slot 4096 pinned: nothing is allocated. *)
Definition pinned_free_block : Header :=
  set_pinned demo_block (<[0%nat := 4097]> zeroed).

(** Two allocations, each pinned once. *)
Definition two_pins_block : Header :=
  set_pinned (reaped (reaped demo_block))
             (<[1%nat := 4161]> (<[0%nat := 4097]> zeroed)).

(** [memset(s, c, n)] on the bytes of a block of at least [n] bytes. *)
Definition memset (buf : list Z) (c : Z) (n : nat) : list Z :=
  repeat c n ++ drop n buf.

(** [generate_packet] of [src/apps/echo/common.hh], for a given value of the
    global [packet_size] (a [uint32_t]).  [block] is what [dmtr_malloc] left
    in [p]: the bytes of a fresh block, or nothing when [p] is still null.
    The result is the contents of the block that is returned; a store
    outside the block is [Fatal].  Characters are their codes: ['a'] is 97. *)
Definition generate_packet (packet_size : Z) (block : option (list Z))
  : result (list Z) :=
  match block with
  | None => Fatal
  | Some buf =>
      if Z.of_nat (length buf) <? packet_size then Fatal else
      let buf := memset buf 97 (Z.to_nat packet_size) in
      let last := u32 (packet_size - 1) in
      if last <? Z.of_nat (length buf)
      then OK (<[Z.to_nat last := 0]> buf)
      else Fatal
  end.

(** The C string held by a buffer: the bytes before the first NUL. *)
Fixpoint c_string (buf : list Z) : list Z :=
  match buf with
  | [] => []
  | b :: rest => if b =? 0 then [] else b :: c_string rest
  end.

(** * Properties *)

(** ** Bit-level facts *)

Lemma u64_small (x : Z) : 0 <= x < 2 ^ 64 -> u64 x = x.
Proof. intros H. unfold u64. now apply Z.mod_small. Qed.

Lemma u32_small (x : Z) : 0 <= x < 2 ^ 32 -> u32 x = x.
Proof. intros H. unfold u32. now apply Z.mod_small. Qed.

Lemma u64_range (x : Z) : 0 <= u64 x < 2 ^ 64.
Proof. unfold u64. apply Z.mod_pos_bound. reflexivity. Qed.

(** Two masks without a common bit split a word in two summands. *)
Lemma land_split (x m c : Z) :
  Z.land m c = 0 -> Z.land x (Z.lor m c) = Z.land x m + Z.land x c.
Proof.
  intros Hmc.
  assert (Hdisj : Z.land (Z.land x m) (Z.land x c) = 0).
  { apply Z.bits_inj'. intros n _.
    rewrite !Z.land_spec, Z.bits_0.
    assert (Hn : Z.testbit (Z.land m c) n = false) by (rewrite Hmc; apply Z.bits_0).
    rewrite Z.land_spec in Hn.
    destruct (Z.testbit x n), (Z.testbit m n), (Z.testbit c n); simpl in *; congruence. }
  rewrite Z.land_lor_distr_r.
  rewrite (Z.add_nocarry_lxor _ _ Hdisj).
  now rewrite (Z.lxor_lor _ _ Hdisj).
Qed.

Lemma land_1 (e : Z) : Z.land e 1 = e mod 2.
Proof. exact (Z.land_ones e 1 ltac:(lia)). Qed.

Lemma land_low_mask (k x : Z) :
  0 <= k <= 64 -> 0 <= x < 2 ^ 64 ->
  Z.land x (2 ^ 64 - 2 ^ k) = x - x mod 2 ^ k.
Proof.
  intros Hk Hx.
  assert (Hdisj : Z.land (2 ^ 64 - 2 ^ k) (Z.ones k) = 0).
  { replace (2 ^ 64 - 2 ^ k) with (Z.shiftl (Z.ones (64 - k)) k).
    - apply Z.bits_inj'. intros n Hn.
      rewrite Z.land_spec, Z.bits_0, Z.shiftl_spec by lia.
      destruct (Z.lt_ge_cases n k) as [Hlt | Hge].
      + rewrite (Z.testbit_neg_r _ (n - k)) by lia. reflexivity.
      + rewrite (Z.ones_spec_high k n) by lia. apply andb_false_r.
    - rewrite Z.shiftl_mul_pow2, Z.ones_equiv by lia.
      unfold Z.pred. rewrite Z.mul_add_distr_r, <- Z.pow_add_r by lia.
      replace (64 - k + k) with 64 by lia. lia. }
  assert (Hall : Z.lor (2 ^ 64 - 2 ^ k) (Z.ones k) = Z.ones 64).
  { rewrite <- (Z.lxor_lor _ _ Hdisj), <- (Z.add_nocarry_lxor _ _ Hdisj).
    rewrite !Z.ones_equiv. unfold Z.pred. lia. }
  pose proof (land_split x _ _ Hdisj) as Hs.
  rewrite Hall, !Z.land_ones in Hs by lia.
  rewrite (Z.mod_small x (2 ^ 64)) in Hs by lia. lia.
Qed.

Lemma entry_addr_eq (e : Z) : 0 <= e < 2 ^ 64 -> entry_addr e = e - e mod 2.
Proof.
  intros He. unfold entry_addr.
  replace (not64 IN_USE) with (2 ^ 64 - 2 ^ 1) by reflexivity.
  rewrite land_low_mask by lia. reflexivity.
Qed.

Lemma entry_flag_eq (e : Z) : entry_flag e = e mod 2.
Proof. apply land_1. Qed.

Lemma lor_1 (e : Z) : 0 <= e -> Z.lor e 1 = e + 1 - e mod 2.
Proof.
  intros He.
  pose proof (Z.add_lor_land e 1) as H.
  rewrite land_1 in H. lia.
Qed.

Lemma align_eq (v : Z) :
  0 <= v < 2 ^ 64 ->
  HL.align Alignment v = u64 (v + 15) - u64 (v + 15) mod 16.
Proof.
  intros Hv. unfold HL.align, Alignment.
  replace (not64 (16 - 1)) with (2 ^ 64 - 2 ^ 4) by reflexivity.
  rewrite land_low_mask by (first [apply u64_range | lia]).
  reflexivity.
Qed.

Lemma align_fixpoint (v : Z) :
  0 <= v < 2 ^ 64 -> (HL.align Alignment v = v <-> v mod 16 = 0).
Proof.
  intros Hv. rewrite align_eq by assumption. unfold u64.
  change (2 ^ 64) with 18446744073709551616 in *.
  split; intros H; Z.div_mod_to_equations; lia.
Qed.

(** The power-of-two test of the constructor, and the mask it licenses. *)
Lemma pow2_mask (sz x : Z) :
  0 < sz -> Z.land sz (sz - 1) = 0 -> Z.land x (sz - 1) = x mod sz.
Proof.
  intros Hsz Hland.
  pose proof (Z.log2_spec sz Hsz) as [Hlo Hhi].
  pose proof (Z.log2_nonneg sz) as Hn.
  set (n := Z.log2 sz) in *.
  assert (Hsz2 : sz = 2 ^ n).
  { destruct (Z.eq_dec sz (2 ^ n)) as [|Hne]; [assumption | exfalso].
    assert (Hlog : Z.log2 (sz - 1) = n).
    { apply Z.log2_unique; [assumption | ].
      rewrite Z.pow_succ_r in Hhi by assumption.
      replace (Z.succ n) with (n + 1) by lia.
      rewrite Z.pow_add_r by lia. lia. }
    assert (Hb1 : Z.testbit sz n = true) by (apply Z.bit_log2; lia).
    assert (Hb2 : Z.testbit (sz - 1) n = true).
    { rewrite <- Hlog. apply Z.bit_log2.
      assert (0 < 2 ^ n) by (apply Z.pow_pos_nonneg; lia). lia. }
    assert (Hb : Z.testbit (Z.land sz (sz - 1)) n = true)
      by (rewrite Z.land_spec, Hb1, Hb2; reflexivity).
    rewrite Hland, Z.bits_0 in Hb. discriminate. }
  rewrite Hsz2. replace (2 ^ n - 1) with (Z.ones n)
    by (rewrite Z.ones_equiv; unfold Z.pred; lia).
  now apply Z.land_ones.
Qed.

(** ** The scan of the Pin Table *)

Lemma scan_from_Some (hit : Z -> bool) (tbl : list Z) (fuel i j : nat) :
  scan_from hit tbl i fuel = Some j ->
  (i <= j < i + fuel)%nat /\ hit (nth j tbl 0) = true /\
  forall k, (i <= k < j)%nat -> hit (nth k tbl 0) = false.
Proof.
  revert i. induction fuel as [|fuel IH]; intros i; simpl; [discriminate|].
  destruct (hit (nth i tbl 0)) eqn:Hi.
  - intros [= <-]. repeat split; [lia | lia | assumption | intros; lia].
  - intros H. destruct (IH _ H) as (Hr & Hj & Hk).
    repeat split; [lia | lia | assumption | ].
    intros k Hk'. destruct (Nat.eq_dec k i) as [->|]; [assumption | apply Hk; lia].
Qed.

Lemma scan_from_None (hit : Z -> bool) (tbl : list Z) (fuel i : nat) :
  scan_from hit tbl i fuel = None ->
  forall k, (i <= k < i + fuel)%nat -> hit (nth k tbl 0) = false.
Proof.
  revert i. induction fuel as [|fuel IH]; intros i; simpl; [intros; lia|].
  destruct (hit (nth i tbl 0)) eqn:Hi; [discriminate|].
  intros H k Hk. destruct (Nat.eq_dec k i) as [->|]; [assumption | apply (IH _ H); lia].
Qed.

Lemma scan_Some (hit : Z -> bool) (tbl : list Z) (j : nat) :
  scan hit tbl = Some j ->
  (j < MAX_PINNED)%nat /\ hit (nth j tbl 0) = true /\
  forall k, (k < j)%nat -> hit (nth k tbl 0) = false.
Proof.
  intros H. destruct (scan_from_Some _ _ _ _ _ H) as (Hr & Hj & Hk).
  repeat split; [lia | assumption | intros; apply Hk; lia].
Qed.

Lemma scan_None (hit : Z -> bool) (tbl : list Z) :
  scan hit tbl = None ->
  forall k, (k < MAX_PINNED)%nat -> hit (nth k tbl 0) = false.
Proof. intros H k Hk. apply (scan_from_None _ _ _ _ H). lia. Qed.

(** The first hit determines the result of the scan. *)
Lemma scan_first (hit : Z -> bool) (tbl : list Z) (j : nat) :
  (j < MAX_PINNED)%nat -> hit (nth j tbl 0) = true ->
  (forall k, (k < j)%nat -> hit (nth k tbl 0) = false) ->
  scan hit tbl = Some j.
Proof.
  intros Hj Hhit Hbefore. destruct (scan hit tbl) as [j'|] eqn:Hs.
  - destruct (scan_Some _ _ _ Hs) as (Hj' & Hhit' & Hbefore').
    destruct (lt_eq_lt_dec j j') as [[Hlt | ->] | Hgt]; [ | reflexivity | ].
    + rewrite (Hbefore' _ Hlt) in Hhit. discriminate.
    + rewrite (Hbefore _ Hgt) in Hhit'. discriminate.
  - rewrite (scan_None _ _ Hs _ Hj) in Hhit. discriminate.
Qed.

Lemma scan_no_hit (hit : Z -> bool) (tbl : list Z) :
  (forall k, (k < MAX_PINNED)%nat -> hit (nth k tbl 0) = false) ->
  scan hit tbl = None.
Proof.
  intros Hno. destruct (scan hit tbl) as [j|] eqn:Hs; [|reflexivity].
  destruct (scan_Some _ _ _ Hs) as (Hj & Hhit & _).
  rewrite (Hno _ Hj) in Hhit. discriminate.
Qed.

(** ** Array reads and writes *)

Lemma nth_insert_eq (tbl : list Z) (i : nat) (v : Z) :
  (i < length tbl)%nat -> nth i (<[i := v]> tbl) 0 = v.
Proof.
  revert i. induction tbl as [|e tbl IH]; intros [|i] H; simpl in *; try lia; auto.
  apply IH. lia.
Qed.

Lemma nth_insert_ne (tbl : list Z) (i j : nat) (v : Z) :
  i <> j -> nth j (<[i := v]> tbl) 0 = nth j tbl 0.
Proof.
  revert i j. induction tbl as [|e tbl IH]; intros [|i] [|j] H; simpl; auto; try lia.
Qed.

(** ** Deferred frees recorded in the Pin Table *)

Lemma deferred_elem (tbl : list Z) (e : Z) :
  e ∈ deferred tbl <-> exists i, (i < length tbl)%nat /\ nth i tbl 0 = e /\ is_deferred e = true.
Proof.
  induction tbl as [|a tbl IH]; simpl.
  - split; [intros H; inversion H | intros (i & Hi & _); lia].
  - split.
    + intros H. destruct (is_deferred a) eqn:Ha.
      * apply elem_of_cons in H as [-> | H].
        -- exists 0%nat. repeat split; [lia | assumption].
        -- apply IH in H as (i & Hi & Hn & Hd). exists (S i). repeat split; [lia | assumption | assumption].
      * apply IH in H as (i & Hi & Hn & Hd). exists (S i). repeat split; [lia | assumption | assumption].
    + intros ([|i] & Hi & Hn & Hd); simpl in Hn.
      * subst a. rewrite Hd. apply elem_of_cons. now left.
      * assert (He : e ∈ deferred tbl) by (apply IH; exists i; repeat split; [lia | assumption | assumption]).
        destruct (is_deferred a); [apply elem_of_cons; now right | assumption].
Qed.

Lemma deferred_insert_keep (tbl : list Z) (i : nat) (v : Z) :
  (i < length tbl)%nat ->
  is_deferred (nth i tbl 0) = false -> is_deferred v = false ->
  deferred (<[i := v]> tbl) = deferred tbl.
Proof.
  revert i. induction tbl as [|a tbl IH]; intros [|i] Hi Hold Hnew; simpl in *; try lia.
  - now rewrite Hold, Hnew.
  - rewrite IH by (assumption || lia). reflexivity.
Qed.

Lemma deferred_insert_add (tbl : list Z) (i : nat) (v : Z) :
  (i < length tbl)%nat ->
  is_deferred (nth i tbl 0) = false -> is_deferred v = true ->
  deferred (<[i := v]> tbl) ≡ₚ v :: deferred tbl.
Proof.
  revert i. induction tbl as [|a tbl IH]; intros [|i] Hi Hold Hnew; simpl in *; try lia.
  - now rewrite Hold, Hnew.
  - destruct (is_deferred a).
    + rewrite IH by (assumption || lia). apply Permutation_swap.
    + apply IH; (assumption || lia).
Qed.

Lemma deferred_insert_del (tbl : list Z) (i : nat) (v : Z) :
  (i < length tbl)%nat ->
  is_deferred (nth i tbl 0) = true -> is_deferred v = false ->
  deferred tbl ≡ₚ nth i tbl 0 :: deferred (<[i := v]> tbl).
Proof.
  revert i. induction tbl as [|a tbl IH]; intros [|i] Hi Hold Hnew; simpl in *; try lia.
  - now rewrite Hold, Hnew.
  - destruct (is_deferred a).
    + rewrite (IH i) at 1 by (assumption || lia). apply Permutation_swap.
    + apply IH; (assumption || lia).
Qed.

(** ** Well-formed control blocks *)

Arguments u64 : simpl never.
Arguments u32 : simpl never.

Section WellFormed.

Variable s : Header.
Hypothesis Hwf : Wf s.

Lemma slot_bounds (k : Z) :
  0 <= k < _totalObjects s ->
  _start s <= slot s k /\ slot s k + _objectSize s <= _start s + _totalObjects s * _objectSize s.
Proof. destruct Hwf. unfold slot. intros Hk. nia. Qed.

Lemma slot_range (k : Z) :
  0 <= k <= _totalObjects s -> 0 < slot s k < 2 ^ 64.
Proof. destruct Hwf. unfold slot. intros Hk. nia. Qed.

Lemma slot_inj (j k : Z) : slot s j = slot s k -> j = k.
Proof. destruct Hwf. unfold slot. intros H. nia. Qed.

Lemma slot_aligned (k : Z) :
  0 <= k < _totalObjects s -> slot s k mod 16 = 0.
Proof.
  destruct Hwf. unfold slot. intros Hk.
  destruct wf_align0 as [H1 | Hsz].
  - assert (k = 0) as -> by lia. now rewrite Z.mul_0_l, Z.add_0_r.
  - rewrite Z.add_mod, Z.mul_mod, Hsz, wf_start_aligned0 by lia.
    now rewrite Z.mul_0_r.
Qed.

Lemma offset_mod (ptr : Z) :
  (if _objectSizeIsPowerOfTwo s
   then Z.land (u64 (ptr - _start s)) (u64 (_objectSize s - 1))
   else u64 (ptr - _start s) mod _objectSize s)
  = u64 (ptr - _start s) mod _objectSize s.
Proof.
  destruct Hwf as [_ Hsize Hpow _ _ _ _ _]. rewrite Hpow.
  rewrite (u64_small (_objectSize s - 1)) by lia.
  destruct (Z.land (_objectSize s) (_objectSize s - 1) =? 0) eqn:Hp;
    simpl; [|reflexivity].
  assert ((_objectSize s =? 0) = false) as -> by lia. simpl.
  apply pow2_mask; lia.
Qed.

Lemma normalize_eq (ptr : Z) :
  normalize s ptr = OK (u64 (ptr - u64 (ptr - _start s) mod _objectSize s)).
Proof.
  unfold normalize. rewrite (wf_valid _ Hwf). simpl.
  pose proof (offset_mod ptr) as H.
  destruct (_objectSizeIsPowerOfTwo s); now rewrite ?H.
Qed.

Lemma getSize_eq (ptr : Z) :
  getSize s ptr = OK (u64 (_objectSize s - u64 (ptr - _start s) mod _objectSize s)).
Proof.
  unfold getSize. rewrite (wf_valid _ Hwf). simpl.
  pose proof (offset_mod ptr) as H.
  destruct (_objectSizeIsPowerOfTwo s); now rewrite ?H.
Qed.

(** Any pointer into slot [k] normalizes to the base of slot [k]. *)
Lemma normalize_slot (k d : Z) :
  0 <= k < _totalObjects s -> 0 <= d < _objectSize s ->
  normalize s (slot s k + d) = OK (slot s k).
Proof.
  intros Hk Hd. rewrite normalize_eq.
  pose proof (slot_bounds k Hk) as [Hlo Hhi]. destruct Hwf.
  assert (Hoff : u64 (slot s k + d - _start s) = k * _objectSize s + d).
  { rewrite u64_small; unfold slot in *; [lia | nia]. }
  rewrite Hoff.
  rewrite (Z.add_comm (k * _objectSize s) d), Z_mod_plus_full, Z.mod_small by lia.
  f_equal. rewrite u64_small; [lia | unfold slot in *; nia].
Qed.

Lemma getSize_slot (k : Z) :
  0 <= k < _totalObjects s -> getSize s (slot s k) = OK (_objectSize s).
Proof.
  intros Hk. rewrite getSize_eq.
  pose proof (slot_bounds k Hk) as [Hlo Hhi]. destruct Hwf.
  assert (Hoff : u64 (slot s k - _start s) = k * _objectSize s).
  { rewrite u64_small; unfold slot in *; [lia | nia]. }
  rewrite Hoff, Z_mod_mult, Z.sub_0_r. f_equal. apply u64_small. lia.
Qed.

(** A pointer into the slot region lies in some slot. *)
Lemma in_superblock_slot (p : Z) :
  in_superblock s p ->
  exists k d, 0 <= k < _totalObjects s /\ 0 <= d < _objectSize s /\ p = slot s k + d.
Proof.
  unfold in_superblock. intros Hp. destruct Hwf.
  exists ((p - _start s) / _objectSize s), ((p - _start s) mod _objectSize s).
  unfold slot.
  pose proof (Z.div_mod (p - _start s) (_objectSize s) ltac:(lia)) as Hdm.
  pose proof (Z.mod_pos_bound (p - _start s) (_objectSize s) ltac:(lia)) as Hm.
  assert (0 <= (p - _start s) / _objectSize s) by (apply Z.div_pos; lia).
  assert ((p - _start s) / _objectSize s < _totalObjects s).
  { apply Z.div_lt_upper_bound; lia. }
  repeat split; lia.
Qed.

End WellFormed.

(** ** The representation invariant *)

Lemma Wf_same_consts (s s' : Header) : same_consts s s' -> Wf s -> Wf s'.
Proof.
  destruct s, s'. unfold same_consts. simpl.
  intros (-> & -> & -> & -> & -> & -> & ->) [H1 H2 H3 H4 H5 H6 H7 H8].
  constructor; assumption.
Qed.

Lemma clear_eq (s : Header) : Wf s -> clear s = OK (cleared s).
Proof.
  intros Hwf. unfold clear. rewrite (wf_valid _ Hwf). simpl.
  unfold cleared. simpl. do 2 f_equal.
  apply align_fixpoint; [ | apply (wf_start_aligned _ Hwf)].
  pose proof (slot_range s Hwf 0) as H. unfold slot in H.
  destruct Hwf. lia.
Qed.

Lemma set_freeList_id (s : Header) : set_freeList s (_freeList s) = s.
Proof. now destruct s. Qed.

Lemma used_slot_facts (s : Header) (p : Z) :
  Wf s -> 0 <= _reapableObjects s -> used_slot s p ->
  0 < p < 2 ^ 64 /\ p mod 16 = 0 /\ in_superblock s p /\
  normalize s p = OK p /\ getSize s p = OK (_objectSize s).
Proof.
  intros Hwf Hr (k & Hk & ->).
  assert (Hk' : 0 <= k < _totalObjects s) by lia.
  pose proof (slot_bounds s Hwf k Hk') as Hb.
  repeat split.
  - apply slot_range; [assumption | lia].
  - apply slot_range; [assumption | lia].
  - now apply slot_aligned.
  - lia.
  - destruct Hwf; lia.
  - pose proof (normalize_slot s Hwf k 0 Hk') as H.
    rewrite Z.add_0_r in H. apply H. destruct Hwf; lia.
  - now apply getSize_slot.
Qed.

Section Invariant.

Variables (s : Header) (live : list Z).
Hypothesis HI : Inv s live.

Lemma inv_counts :
  Z.of_nat (length live) + Z.of_nat (length (_freeList s))
  + Z.of_nat (length (deferred (_pinned s)))
  = _totalObjects s - _reapableObjects s.
Proof.
  rewrite <- (inv_count _ _ HI). unfold owned. rewrite !length_app. lia.
Qed.

Lemma inv_free_bounds : 0 <= _objectsFree s <= _totalObjects s.
Proof.
  pose proof inv_counts. pose proof (inv_free _ _ HI). pose proof (inv_reap _ _ HI). lia.
Qed.

Lemma inv_owned_facts (p : Z) :
  p ∈ owned s live ->
  0 < p < 2 ^ 64 /\ p mod 16 = 0 /\ in_superblock s p /\
  normalize s p = OK p /\ getSize s p = OK (_objectSize s).
Proof.
  intros Hp. apply used_slot_facts;
    [apply HI | apply (inv_reap _ _ HI) | now apply (inv_slots _ _ HI)].
Qed.

Lemma live_owned (p : Z) : p ∈ live -> p ∈ owned s live.
Proof. intros H. unfold owned. apply elem_of_app. now left. Qed.

Lemma freeList_owned (p : Z) : p ∈ _freeList s -> p ∈ owned s live.
Proof. intros H. unfold owned. rewrite !elem_of_app. auto. Qed.

Lemma deferred_owned (p : Z) : p ∈ deferred (_pinned s) -> p ∈ owned s live.
Proof. intros H. unfold owned. rewrite !elem_of_app. auto. Qed.

End Invariant.

(** ** Allocation in well-formed states *)

Section Malloc.
Variables (s : Header) (live : list Z).
Hypothesis HI : Inv s live.

Lemma position_facts :
  0 < _position s < 2 ^ 64 /\
  (0 < _reapableObjects s ->
   _position s mod 16 = 0 /\ _position s + _objectSize s < 2 ^ 64).
Proof.
  pose proof (inv_wf _ _ HI) as Hwf. pose proof (inv_reap _ _ HI) as Hr.
  rewrite (inv_pos _ _ HI). split.
  - apply slot_range; [assumption | lia].
  - intros Hpos. split.
    + apply slot_aligned; [assumption | lia].
    + pose proof (slot_bounds s Hwf (_totalObjects s - _reapableObjects s) ltac:(lia)).
      destruct Hwf. lia.
Qed.

Lemma reapAlloc_reap :
  0 < _reapableObjects s -> reapAlloc s = OK (_position s, reaped s).
Proof.
  intros Hr. destruct position_facts as [Hp Hp']. destruct (Hp' Hr) as [Hal Hfit].
  pose proof (inv_wf _ _ HI) as Hwf.
  pose proof (inv_free_bounds _ _ HI) as Hf. pose proof (inv_free _ _ HI) as Hfe.
  pose proof (inv_reap _ _ HI) as Hrb.
  unfold reapAlloc. rewrite (wf_valid _ Hwf). simpl.
  assert ((_position s =? 0) = false) as -> by lia. simpl.
  assert ((0 <? _reapableObjects s) = true) as -> by lia.
  unfold Alignment. rewrite Hal. simpl.
  rewrite u64_small by (destruct Hwf; lia).
  rewrite !u32_small by (destruct Hwf; lia).
  reflexivity.
Qed.

Lemma reapAlloc_none :
  _reapableObjects s = 0 -> reapAlloc s = OK (0, s).
Proof.
  intros Hr. destruct position_facts as [Hp _].
  unfold reapAlloc. rewrite (wf_valid _ (inv_wf _ _ HI)). simpl.
  assert ((_position s =? 0) = false) as -> by lia. simpl.
  now rewrite Hr.
Qed.

Lemma freeListAlloc_pop (p : Z) (l : list Z) :
  _freeList s = p :: l -> freeListAlloc s = OK (p, popped s l).
Proof.
  intros Hfl.
  assert (Hp : p ∈ owned s live) by (apply freeList_owned; rewrite Hfl; left).
  destruct (inv_owned_facts _ _ HI p Hp) as (Hr & _).
  pose proof (inv_free_bounds _ _ HI) as Hf. pose proof (inv_free _ _ HI) as Hfe.
  pose proof (inv_reap _ _ HI) as Hrb. pose proof (inv_wf _ _ HI) as Hwf.
  rewrite Hfl in Hfe. simpl length in Hfe.
  unfold freeListAlloc. rewrite (wf_valid _ Hwf), Hfl. simpl.
  assert ((p =? 0) = false) as -> by lia. simpl.
  assert ((1 <=? _objectsFree s) = true) as -> by lia. simpl.
  rewrite u32_small by (destruct Hwf; lia). reflexivity.
Qed.

Lemma freeListAlloc_none :
  _freeList s = [] -> freeListAlloc s = OK (0, s).
Proof.
  intros Hfl. unfold freeListAlloc.
  rewrite (wf_valid _ (inv_wf _ _ HI)), Hfl. simpl.
  now rewrite <- Hfl, set_freeList_id.
Qed.

Lemma malloc_reap :
  0 < _reapableObjects s -> malloc s = OK (_position s, reaped s).
Proof.
  intros Hr. destruct position_facts as [Hp Hp']. destruct (Hp' Hr) as [Hal Hfit].
  pose proof (inv_wf _ _ HI) as Hwf. pose proof (inv_reap _ _ HI) as Hrb.
  assert (Hz : (_position s =? 0) = false) by lia.
  assert (Hsz : getSize (reaped s) (_position s) = OK (_objectSize s)).
  { change (getSize s (_position s) = OK (_objectSize s)).
    rewrite (inv_pos _ _ HI). apply getSize_slot; [assumption | lia]. }
  unfold malloc. rewrite (wf_valid _ Hwf), (reapAlloc_reap Hr). simpl.
  unfold Alignment.
  repeat (rewrite ?Hz, ?Hal, ?Hsz, ?Z.leb_refl; simpl). reflexivity.
Qed.

Lemma malloc_pop (p : Z) (l : list Z) :
  _reapableObjects s = 0 -> _freeList s = p :: l ->
  malloc s = OK (p, popped s l).
Proof.
  intros Hr Hfl.
  assert (Hp : p ∈ owned s live) by (apply freeList_owned; rewrite Hfl; left).
  destruct (inv_owned_facts _ _ HI p Hp) as (Hrange & Hal & _ & _ & Hsz).
  change (getSize (popped s l) p = OK (_objectSize s)) in Hsz.
  pose proof (inv_wf _ _ HI) as Hwf.
  unfold malloc. rewrite (wf_valid _ Hwf), (reapAlloc_none Hr). simpl.
  rewrite (freeListAlloc_pop _ _ Hfl). simpl.
  assert (Hz : (p =? 0) = false) by lia.
  unfold Alignment.
  repeat (rewrite ?Hz, ?Hal, ?Hsz, ?Z.leb_refl; simpl). reflexivity.
Qed.

Lemma malloc_none :
  _reapableObjects s = 0 -> _freeList s = [] -> malloc s = OK (0, s).
Proof.
  intros Hr Hfl. pose proof (inv_wf _ _ HI) as Hwf.
  unfold malloc. rewrite (wf_valid _ Hwf), (reapAlloc_none Hr). simpl.
  rewrite (freeListAlloc_none Hfl). reflexivity.
Qed.

Lemma Inv_reaped :
  0 < _reapableObjects s -> Inv (reaped s) (_position s :: live).
Proof.
  intros Hr. destruct HI as [Hwf Hlen Hrange Hrb Hpos Hfree Hnd Hslots Hcount Hfull].
  pose proof (inv_free_bounds _ _ HI) as Hfb.
  assert (Hown : owned (reaped s) (_position s :: live) = _position s :: owned s live)
    by reflexivity.
  constructor; try assumption.
  - apply (Wf_same_consts s); [repeat split | assumption].
  - simpl. lia.
  - simpl. rewrite Hpos. unfold slot. simpl. lia.
  - simpl. lia.
  - rewrite Hown. apply NoDup_cons. split; [|assumption].
    intros Hin. destruct (Hslots _ Hin) as (k & Hk & Hpk).
    rewrite Hpos in Hpk. apply (slot_inj s Hwf) in Hpk. lia.
  - rewrite Hown. intros p [-> | Hin]%elem_of_cons.
    + exists (_totalObjects s - _reapableObjects s). simpl. split; [lia | assumption].
    + destruct (Hslots _ Hin) as (k & Hk & Hpk). exists k. simpl. split; [lia | assumption].
  - rewrite Hown. simpl. simpl in Hcount. lia.
  - simpl. lia.
Qed.

Lemma Inv_popped (p : Z) (l : list Z) :
  _freeList s = p :: l -> Inv (popped s l) (p :: live).
Proof.
  intros Hfl. destruct HI as [Hwf Hlen Hrange Hrb Hpos Hfree Hnd Hslots Hcount Hfull].
  pose proof (inv_free_bounds _ _ HI) as Hfb.
  assert (Hown : owned (popped s l) (p :: live) ≡ₚ owned s live).
  { unfold owned. simpl. rewrite Hfl. simpl.
    now rewrite (Permutation_middle live (l ++ deferred (_pinned s)) p). }
  rewrite Hfl in Hfree. simpl length in Hfree.
  constructor; try assumption.
  - apply (Wf_same_consts s); [repeat split | assumption].
  - simpl. lia.
  - now rewrite Hown.
  - intros q Hq. rewrite Hown in Hq. apply (Hslots _ Hq).
  - now rewrite Hown.
  - simpl. lia.
Qed.

End Malloc.

(** ** Release, pin and unpin in well-formed states *)

Lemma used_slot_same (s s' : Header) (p : Z) :
  same_consts s s' -> _reapableObjects s' = _reapableObjects s ->
  used_slot s p -> used_slot s' p.
Proof.
  intros (_ & _ & Hsz & _ & Htot & Hst & _) Hr (k & Hk & ->).
  exists k. unfold slot. rewrite Hsz, Htot, Hst, Hr. auto.
Qed.

(** Moving slots between the live list, the Free List and the deferred
    frees keeps the invariant. *)
Lemma Inv_perm (s s' : Header) (live live' : list Z) :
  Inv s live -> same_consts s s' ->
  _reapableObjects s' = _reapableObjects s -> _position s' = _position s ->
  length (_pinned s') = MAX_PINNED ->
  (forall i, 0 <= nth i (_pinned s') 0 < 2 ^ 64) ->
  owned s' live' ≡ₚ owned s live ->
  _objectsFree s' = _reapableObjects s' + Z.of_nat (length (_freeList s')) ->
  _objectsFree s' <> _totalObjects s' ->
  Inv s' live'.
Proof.
  intros [Hwf Hlen Hrange Hrb Hpos Hfree Hnd Hslots Hcount Hfull]
         Hc Hr Hp Hlen' Hrange' Hown Hfree' Hne.
  pose proof Hc as (_ & _ & Hsz & _ & Htot & Hst & _).
  constructor; try assumption.
  - now apply (Wf_same_consts s).
  - rewrite Hr, Htot. assumption.
  - rewrite Hp, Hpos. unfold slot. now rewrite Hsz, Htot, Hst, Hr.
  - now rewrite Hown.
  - intros p Hin. rewrite Hown in Hin. apply (used_slot_same s); auto.
  - rewrite Hown, Hr, Htot. assumption.
  - intros H. contradiction.
Qed.

(** A drained superblock satisfies the invariant with no live allocation. *)
Lemma Inv_drained (s : Header) :
  Wf s -> length (_pinned s) = MAX_PINNED ->
  (forall i, 0 <= nth i (_pinned s) 0 < 2 ^ 64) ->
  _reapableObjects s = _totalObjects s -> _objectsFree s = _totalObjects s ->
  _freeList s = [] -> _position s = _start s -> deferred (_pinned s) = [] ->
  Inv s [].
Proof.
  intros Hwf Hlen Hrange Hr Hf Hfl Hp Hd.
  assert (Hown : owned s [] = []) by (unfold owned; now rewrite Hfl, Hd).
  constructor; try assumption.
  - rewrite Hr. destruct Hwf. lia.
  - rewrite Hp, Hr. unfold slot. lia.
  - rewrite Hr, Hf, Hfl. simpl. lia.
  - rewrite Hown. constructor.
  - rewrite Hown. intros p Hin. inversion Hin.
  - rewrite Hown, Hr. simpl. lia.
  - auto.
Qed.

Lemma is_deferred_flagged (e : Z) : e mod 2 = 1 -> is_deferred e = false.
Proof.
  intros H. unfold is_deferred. rewrite entry_flag_eq, H. apply andb_false_r.
Qed.

Lemma is_deferred_even (e : Z) : e <> 0 -> e mod 2 = 0 -> is_deferred e = true.
Proof.
  intros H0 H. unfold is_deferred. rewrite entry_flag_eq, H.
  assert ((e =? 0) = false) as -> by lia. reflexivity.
Qed.

Lemma mod16_even (p : Z) : p mod 16 = 0 -> p mod 2 = 0.
Proof. intros H. Z.div_mod_to_equations. lia. Qed.

Section Release.
Variables (s : Header) (live live' : list Z) (p : Z).
Hypothesis HI : Inv s live.
Hypothesis Hlive : live ≡ₚ p :: live'.

Lemma released_facts :
  0 < p < 2 ^ 64 /\ p mod 16 = 0 /\ p ∉ deferred (_pinned s).
Proof.
  assert (Hp : p ∈ owned s live).
  { apply live_owned. rewrite Hlive. left. }
  destruct (inv_owned_facts _ _ HI p Hp) as (Hr & Hal & _).
  repeat split; try assumption; try lia.
  intros Hd. pose proof (inv_nodup _ _ HI) as Hnd. unfold owned in Hnd.
  rewrite Hlive in Hnd. simpl in Hnd. apply NoDup_cons in Hnd as [Hnot _].
  apply Hnot. rewrite !elem_of_app. auto.
Qed.

(** A cell that matches a live pointer carries the in-use flag. *)
Lemma matched_cell (i : nat) :
  (i < MAX_PINNED)%nat -> (entry_addr (pinned_at s i) =? p) = true ->
  pinned_at s i = p + 1 /\ entry_addr (pinned_at s i) = p.
Proof.
  intros Hi Hhit. destruct released_facts as (Hr & Hal & Hnd).
  pose proof (inv_tbl_range _ _ HI i) as He. fold (pinned_at s i) in He.
  apply Z.eqb_eq in Hhit. split; [|assumption].
  rewrite entry_addr_eq in Hhit by assumption.
  destruct (Z.eq_dec (pinned_at s i mod 2) 0) as [Hev | Hodd].
  - exfalso. apply Hnd. apply deferred_elem. exists i.
    rewrite (inv_tbl_len _ _ HI). unfold pinned_at in *.
    repeat split; [assumption | lia | apply is_deferred_even; [lia | now apply mod16_even]].
  - pose proof (Z.mod_pos_bound (pinned_at s i) 2 ltac:(lia)). lia.
Qed.

Lemma free_pinned (i : nat) :
  scan (fun e => entry_addr e =? p) (_pinned s) = Some i ->
  free s p = OK (set_pinned s (<[i := p]> (_pinned s))).
Proof.
  intros Hscan. destruct released_facts as (Hr & Hal & Hnd).
  destruct (scan_Some _ _ _ Hscan) as (Hi & Hhit & _).
  destruct (matched_cell i Hi Hhit) as (He & Ha).
  unfold free. unfold Alignment. rewrite Hal. simpl.
  rewrite (wf_valid _ (inv_wf _ _ HI)), Hscan. simpl.
  fold (entry_addr (pinned_at s i)). rewrite Ha, land_1, He.
  assert ((p + 1) mod 2 = 1) as -> by (apply mod16_even in Hal; Z.div_mod_to_equations; lia).
  reflexivity.
Qed.

Lemma Inv_free_pinned (i : nat) :
  scan (fun e => entry_addr e =? p) (_pinned s) = Some i ->
  Inv (set_pinned s (<[i := p]> (_pinned s))) live'.
Proof.
  intros Hscan. destruct released_facts as (Hr & Hal & Hnd).
  destruct (scan_Some _ _ _ Hscan) as (Hi & Hhit & _).
  destruct (matched_cell i Hi Hhit) as (He & Ha).
  pose proof (inv_tbl_len _ _ HI) as Hlen.
  assert (Hodd : (p + 1) mod 2 = 1) by (apply mod16_even in Hal; Z.div_mod_to_equations; lia).
  pose proof (inv_full _ _ HI) as Hfull. pose proof (inv_counts _ _ HI) as Hcnt.
  pose proof (inv_free _ _ HI) as Hfree.
  assert (Hl : (1 <= length live)%nat) by (rewrite Hlive; simpl; lia).
  apply (Inv_perm s _ live); try assumption; try reflexivity.
  - repeat split.
  - simpl. now rewrite length_insert.
  - intros j. simpl. destruct (Nat.eq_dec i j) as [<- | Hne].
    + rewrite nth_insert_eq by lia. lia.
    + rewrite nth_insert_ne by assumption. apply (inv_tbl_range _ _ HI).
  - unfold owned. simpl.
    rewrite deferred_insert_add;
      [ | lia | fold (pinned_at s i); rewrite He; now apply is_deferred_flagged
        | apply is_deferred_even; [lia | now apply mod16_even] ].
    rewrite Hlive. simpl.
    rewrite <- (Permutation_middle (_freeList s) (deferred (_pinned s)) p).
    now rewrite <- (Permutation_middle live' (_freeList s ++ deferred (_pinned s)) p).
  - simpl. lia.
Qed.

Lemma free_unpinned :
  scan (fun e => entry_addr e =? p) (_pinned s) = None ->
  free s p = OK (reclaimed s p).
Proof.
  intros Hscan. destruct released_facts as (Hr & Hal & Hnd).
  pose proof (inv_counts _ _ HI) as Hcnt. pose proof (inv_free _ _ HI) as Hfree.
  pose proof (inv_reap _ _ HI) as Hrb. pose proof (inv_wf _ _ HI) as Hwf.
  assert (Hl : (1 <= length live)%nat) by (rewrite Hlive; simpl; lia).
  unfold free. unfold Alignment. rewrite Hal. simpl.
  rewrite (wf_valid _ Hwf), Hscan. simpl.
  rewrite u32_small by (destruct Hwf; lia).
  unfold reclaimed.
  destruct (_objectsFree s + 1 =? _totalObjects s); [|reflexivity].
  rewrite clear_eq; [reflexivity | ].
  apply (Wf_same_consts s); [repeat split | assumption].
Qed.

Lemma Inv_free_unpinned : Inv (reclaimed s p) live'.
Proof.
  destruct released_facts as (Hr & Hal & Hnd).
  pose proof (inv_counts _ _ HI) as Hcnt. pose proof (inv_free _ _ HI) as Hfree.
  pose proof (inv_reap _ _ HI) as Hrb. pose proof (inv_wf _ _ HI) as Hwf.
  assert (Hl : length live = S (length live')) by (rewrite Hlive; reflexivity).
  unfold reclaimed. destruct (_objectsFree s + 1 =? _totalObjects s) eqn:Hfull.
  - assert (Hlen0 : length live' = 0%nat /\ length (deferred (_pinned s)) = 0%nat) by lia.
    destruct Hlen0 as [Hl0 Hd0].
    apply length_zero_iff_nil in Hl0. apply length_zero_iff_nil in Hd0. subst live'.
    apply Inv_drained; try reflexivity; try assumption.
    + apply (Wf_same_consts s); [repeat split | assumption].
    + apply (inv_tbl_len _ _ HI).
    + apply (inv_tbl_range _ _ HI).
  - apply (Inv_perm s _ live); try assumption; try reflexivity.
    + repeat split.
    + apply (inv_tbl_len _ _ HI).
    + apply (inv_tbl_range _ _ HI).
    + unfold owned, pushed, FreeSLList.insert. simpl. rewrite Hlive. simpl.
      now rewrite <- (Permutation_middle live' (_freeList s ++ deferred (_pinned s)) p).
    + unfold pushed, FreeSLList.insert. simpl. lia.
    + unfold pushed. simpl. lia.
Qed.

End Release.

Section Pin.
Variables (s : Header) (live : list Z).
Hypothesis HI : Inv s live.

Lemma normalized_range (ptr : Z) : 0 <= normalized s ptr < 2 ^ 64.
Proof. apply u64_range. Qed.

Lemma lor_in_use (obj : Z) :
  0 <= obj < 2 ^ 64 ->
  0 <= Z.lor obj IN_USE < 2 ^ 64 /\ Z.lor obj IN_USE mod 2 = 1.
Proof.
  intros H. unfold IN_USE. rewrite lor_1 by lia.
  change (2 ^ 64) with 18446744073709551616 in *.
  Z.div_mod_to_equations. lia.
Qed.

Lemma pin_free_cell (ptr : Z) (i : nat) :
  scan (fun e => e =? 0) (_pinned s) = Some i ->
  pin s ptr = OK (set_pinned s (<[i := Z.lor (normalized s ptr) IN_USE]> (_pinned s))).
Proof.
  intros Hscan. pose proof (inv_wf _ _ HI) as Hwf.
  unfold pin. rewrite (wf_valid _ Hwf), (normalize_eq s Hwf). simpl.
  now rewrite Hscan.
Qed.

Lemma pin_full (ptr : Z) :
  scan (fun e => e =? 0) (_pinned s) = None -> pin s ptr = Fatal.
Proof.
  intros Hscan. pose proof (inv_wf _ _ HI) as Hwf.
  unfold pin. rewrite (wf_valid _ Hwf), (normalize_eq s Hwf). simpl.
  now rewrite Hscan.
Qed.

Lemma Inv_pin (ptr : Z) (i : nat) :
  scan (fun e => e =? 0) (_pinned s) = Some i ->
  Inv (set_pinned s (<[i := Z.lor (normalized s ptr) IN_USE]> (_pinned s))) live.
Proof.
  intros Hscan. destruct (scan_Some _ _ _ Hscan) as (Hi & Hhit & _).
  apply Z.eqb_eq in Hhit.
  destruct (lor_in_use _ (normalized_range ptr)) as [Hrange Hodd].
  pose proof (inv_tbl_len _ _ HI) as Hlen.
  pose proof (inv_full _ _ HI) as Hfull. pose proof (inv_counts _ _ HI) as Hcnt.
  pose proof (inv_free _ _ HI) as Hfree.
  assert (Hown : owned (set_pinned s (<[i := Z.lor (normalized s ptr) IN_USE]> (_pinned s))) live
                 = owned s live).
  { unfold owned. simpl. rewrite deferred_insert_keep;
      [reflexivity | lia | now rewrite Hhit | now apply is_deferred_flagged]. }
  destruct HI as [Hwf _ Hr Hrb Hpos _ Hnd Hslots Hcount _].
  constructor; try assumption.
  - apply (Wf_same_consts s); [repeat split | assumption].
  - simpl. now rewrite length_insert.
  - intros j. simpl. destruct (Nat.eq_dec i j) as [<- | Hne].
    + rewrite nth_insert_eq by lia. assumption.
    + rewrite nth_insert_ne by assumption. apply Hr.
  - now rewrite Hown.
  - rewrite Hown. intros q Hq. apply (used_slot_same s); [repeat split | reflexivity | auto].
  - now rewrite Hown.
Qed.

(** *** Unpin *)

Variable ptr : Z.
Hypothesis Hobj : normalized s ptr <> 0.

Lemma unpin_no_cell :
  scan (fun e => entry_addr e =? normalized s ptr) (_pinned s) = None ->
  unpin s ptr = Fatal.
Proof.
  intros Hscan. pose proof (inv_wf _ _ HI) as Hwf.
  unfold unpin. rewrite (wf_valid _ Hwf), (normalize_eq s Hwf). simpl.
  fold (normalized s ptr). now rewrite Hscan.
Qed.

(** The cell is still in use: the slot stays with its owner. *)
Lemma unpin_in_use (i : nat) :
  scan (fun e => entry_addr e =? normalized s ptr) (_pinned s) = Some i ->
  entry_flag (pinned_at s i) <> 0 ->
  unpin s ptr = OK (set_pinned s (<[i := 0]> (_pinned s))).
Proof.
  intros Hscan Hflag. pose proof (inv_wf _ _ HI) as Hwf.
  unfold unpin. rewrite (wf_valid _ Hwf), (normalize_eq s Hwf). simpl.
  fold (normalized s ptr). rewrite Hscan.
  assert ((entry_flag (pinned_at s i) =? 0) = false) as -> by lia.
  reflexivity.
Qed.

Lemma Inv_unpin_in_use (i : nat) :
  scan (fun e => entry_addr e =? normalized s ptr) (_pinned s) = Some i ->
  entry_flag (pinned_at s i) <> 0 ->
  Inv (set_pinned s (<[i := 0]> (_pinned s))) live.
Proof.
  intros Hscan Hflag. destruct (scan_Some _ _ _ Hscan) as (Hi & Hhit & _).
  pose proof (inv_tbl_len _ _ HI) as Hlen.
  assert (Hown : owned (set_pinned s (<[i := 0]> (_pinned s))) live = owned s live).
  { unfold owned. simpl. rewrite deferred_insert_keep; [reflexivity | lia | | reflexivity].
    unfold is_deferred. fold (pinned_at s i).
    assert ((entry_flag (pinned_at s i) =? 0) = false) as -> by lia.
    apply andb_false_r. }
  destruct HI as [Hwf _ Hr Hrb Hpos Hfree Hnd Hslots Hcount Hfull].
  constructor; try assumption.
  - apply (Wf_same_consts s); [repeat split | assumption].
  - simpl. now rewrite length_insert.
  - intros j. simpl. destruct (Nat.eq_dec i j) as [<- | Hne].
    + rewrite nth_insert_eq by lia. lia.
    + rewrite nth_insert_ne by assumption. apply Hr.
  - now rewrite Hown.
  - rewrite Hown. intros q Hq. apply (used_slot_same s); [repeat split | reflexivity | auto].
  - now rewrite Hown.
Qed.

(** The cell records a deferred free: the reclamation happens now. *)
Lemma deferred_cell (i : nat) :
  scan (fun e => entry_addr e =? normalized s ptr) (_pinned s) = Some i ->
  entry_flag (pinned_at s i) = 0 ->
  pinned_at s i = normalized s ptr /\ is_deferred (pinned_at s i) = true /\
  normalized s ptr ∈ deferred (_pinned s).
Proof.
  intros Hscan Hflag. destruct (scan_Some _ _ _ Hscan) as (Hi & Hhit & _).
  pose proof (inv_tbl_range _ _ HI i) as He. fold (pinned_at s i) in *.
  apply Z.eqb_eq in Hhit. rewrite entry_addr_eq in Hhit by assumption.
  rewrite entry_flag_eq in Hflag.
  assert (Hcell : pinned_at s i = normalized s ptr) by lia.
  assert (Hd : is_deferred (pinned_at s i) = true)
    by (apply is_deferred_even; [lia | assumption]).
  repeat split; try assumption.
  apply deferred_elem. exists i. rewrite (inv_tbl_len _ _ HI).
  repeat split; [assumption | exact Hcell | now rewrite <- Hcell].
Qed.

Lemma unpin_deferred (i : nat) :
  scan (fun e => entry_addr e =? normalized s ptr) (_pinned s) = Some i ->
  entry_flag (pinned_at s i) = 0 ->
  unpin s ptr =
  OK (set_pinned (reclaimed s (normalized s ptr))
                 (<[i := 0]> (_pinned (reclaimed s (normalized s ptr))))).
Proof.
  intros Hscan Hflag. destruct (deferred_cell i Hscan Hflag) as (Hcell & Hd & Hin).
  pose proof (inv_wf _ _ HI) as Hwf.
  pose proof (inv_counts _ _ HI) as Hcnt. pose proof (inv_free _ _ HI) as Hfree.
  pose proof (inv_reap _ _ HI) as Hrb.
  assert (Hl : (1 <= length (deferred (_pinned s)))%nat).
  { destruct (deferred (_pinned s)); [inversion Hin | simpl; lia]. }
  unfold unpin. rewrite (wf_valid _ Hwf), (normalize_eq s Hwf). simpl.
  fold (normalized s ptr). rewrite Hscan, Hflag. simpl.
  rewrite u32_small by (destruct Hwf; lia).
  unfold reclaimed.
  destruct (_objectsFree s + 1 =? _totalObjects s); [|reflexivity].
  rewrite clear_eq; [reflexivity | ].
  apply (Wf_same_consts s); [repeat split | assumption].
Qed.

Lemma Inv_unpin_deferred (i : nat) :
  scan (fun e => entry_addr e =? normalized s ptr) (_pinned s) = Some i ->
  entry_flag (pinned_at s i) = 0 ->
  Inv (set_pinned (reclaimed s (normalized s ptr))
                  (<[i := 0]> (_pinned (reclaimed s (normalized s ptr))))) live.
Proof.
  intros Hscan Hflag. destruct (deferred_cell i Hscan Hflag) as (Hcell & Hd & Hin).
  destruct (scan_Some _ _ _ Hscan) as (Hi & _ & _).
  pose proof (inv_wf _ _ HI) as Hwf. pose proof (inv_tbl_len _ _ HI) as Hlen.
  pose proof (inv_counts _ _ HI) as Hcnt. pose proof (inv_free _ _ HI) as Hfree.
  pose proof (inv_reap _ _ HI) as Hrb.
  pose proof (deferred_insert_del (_pinned s) i 0 ltac:(lia) Hd eq_refl) as Hperm.
  fold (pinned_at s i) in Hperm. rewrite Hcell in Hperm.
  assert (Hl : length (deferred (_pinned s)) = S (length (deferred (<[i := 0]> (_pinned s)))))
    by (rewrite Hperm; reflexivity).
  assert (Hrange : forall j, 0 <= nth j (<[i := 0]> (_pinned s)) 0 < 2 ^ 64).
  { intros j. destruct (Nat.eq_dec i j) as [<- | Hne].
    - rewrite nth_insert_eq by lia. lia.
    - rewrite nth_insert_ne by assumption. apply (inv_tbl_range _ _ HI). }
  unfold reclaimed. destruct (_objectsFree s + 1 =? _totalObjects s) eqn:Hfull.
  - assert (Hlen0 : length live = 0%nat /\ length (deferred (<[i := 0]> (_pinned s))) = 0%nat) by lia.
    destruct Hlen0 as [Hl0 Hd0].
    apply length_zero_iff_nil in Hl0. apply length_zero_iff_nil in Hd0. subst live.
    apply Inv_drained; try reflexivity; try assumption.
    + apply (Wf_same_consts s); [repeat split | assumption].
    + simpl. now rewrite length_insert.
  - apply (Inv_perm s _ live); try assumption; try reflexivity.
    + repeat split.
    + simpl. now rewrite length_insert.
    + unfold owned, pushed, FreeSLList.insert. simpl. rewrite Hperm.
      now rewrite <- (Permutation_middle (_freeList s) _ (normalized s ptr)).
    + unfold pushed, FreeSLList.insert. simpl. lia.
    + unfold pushed. simpl. lia.
Qed.

End Pin.

(** ** Reachable states *)

Lemma deferred_zeroed : deferred zeroed = [].
Proof. reflexivity. Qed.

Lemma construct_fields (hw : Hardware) (this_ sz bufferSize start : Z)
    (mem : list Z) (s : Header) (evs : list Event) :
  construct hw this_ sz bufferSize start mem = OK (s, evs) ->
  this s = this_ /\ _magicNumber s = Z.lxor MAGIC_NUMBER this_ /\
  _objectSize s = sz /\
  _objectSizeIsPowerOfTwo s = (Z.land sz (u64 (sz - 1)) =? 0) && negb (sz =? 0) /\
  _totalObjects s = u32 (bufferSize / sz) /\
  _reapableObjects s = u32 (bufferSize / sz) /\
  _objectsFree s = u32 (bufferSize / sz) /\
  _start s = start /\ _position s = start /\ _pinned s = mem /\
  _freeList s = [] /\
  _mr s = (if rdma_get_pd hw =? 0 then 0
           else ibv_reg_mr hw (rdma_get_pd hw) start bufferSize
                  (Z.lor IBV_ACCESS_LOCAL_WRITE IBV_ACCESS_REMOTE_WRITE)) /\
  sz <> 0 /\ HL.align Alignment start = start /\ 16 <= sz /\
  (u32 (bufferSize / sz) = 1 \/ sz mod 16 = 0).
Proof.
  unfold construct. destruct (sz =? 0) eqn:Hsz; [discriminate|]. simpl.
  destruct (HL.align Alignment start =? start) eqn:Hal; [|discriminate]. simpl.
  destruct (Alignment <=? sz) eqn:Hge; [|discriminate]. simpl.
  destruct ((u32 (bufferSize / sz) =? 1) || (sz mod Alignment =? 0)) eqn:Hor;
    [|discriminate]. simpl.
  apply orb_true_iff in Hor. unfold Alignment in *.
  destruct (rdma_get_pd hw =? 0); simpl; intros [= <- <-]; simpl;
    repeat split; try reflexivity; lia.
Qed.

Lemma construct_Inv (hw : Hardware) (this_ sz bufferSize start : Z)
    (s : Header) (evs : list Event) :
  0 <= sz < 2 ^ 64 -> 0 <= bufferSize < 2 ^ 64 ->
  0 < start -> start + bufferSize < 2 ^ 64 ->
  construct hw this_ sz bufferSize start zeroed = OK (s, evs) ->
  Inv s [].
Proof.
  intros Hsz Hbuf Hstart Hfit Hc.
  destruct (construct_fields _ _ _ _ _ _ _ _ Hc)
    as (Hthis & Hmagic & Hos & Hpow & Htot & Hr & Hf & Hst & Hpos & Hpin & Hfl
        & _ & Hnz & Hal & Hge & Halign).
  assert (Hq : 0 <= u32 (bufferSize / sz) <= bufferSize / sz).
  { assert (0 <= bufferSize / sz) by (apply Z.div_pos; lia).
    unfold u32. split; [apply Z.mod_pos_bound; lia | apply Z.mod_le; lia]. }
  assert (Hmul : u32 (bufferSize / sz) * sz <= bufferSize).
  { pose proof (Z.mul_div_le bufferSize sz ltac:(lia)). nia. }
  assert (Hwf : Wf s).
  { constructor.
    - unfold isValid. rewrite Hmagic, Hthis. apply Z.eqb_refl.
    - rewrite Hos. lia.
    - rewrite Hpow, Hos. reflexivity.
    - rewrite Htot. unfold u32. apply Z.mod_pos_bound. lia.
    - rewrite Hst. assumption.
    - rewrite Hst. apply align_fixpoint; [lia | assumption].
    - rewrite Hst, Htot, Hos. lia.
    - rewrite Htot, Hos. assumption. }
  apply Inv_drained; try assumption.
  - rewrite Hpin. reflexivity.
  - intros i. rewrite Hpin. unfold zeroed. rewrite nth_repeat. lia.
  - congruence.
  - congruence.
  - congruence.
  - rewrite Hpin. apply deferred_zeroed.
Qed.

(** *** What each call returns in a well-formed state *)

Lemma malloc_cases (s : Header) (live : list Z) (p : Z) (s' : Header) :
  Inv s live -> malloc s = OK (p, s') ->
  (0 < _reapableObjects s /\ p = _position s /\ s' = reaped s /\ p <> 0) \/
  (_reapableObjects s = 0 /\ exists l, _freeList s = p :: l /\ s' = popped s l /\ p <> 0) \/
  (_reapableObjects s = 0 /\ _freeList s = [] /\ p = 0 /\ s' = s).
Proof.
  intros HI Hm. pose proof (inv_reap _ _ HI) as Hr.
  destruct (Z.eq_dec (_reapableObjects s) 0) as [Hr0 | Hr0].
  - right. destruct (_freeList s) as [|q l] eqn:Hfl.
    + right. rewrite (malloc_none _ _ HI Hr0 Hfl) in Hm. injection Hm as <- <-. auto.
    + left. rewrite (malloc_pop _ _ HI q l Hr0 Hfl) in Hm. injection Hm as <- <-.
      split; [assumption|]. exists l. repeat split.
      assert (Hq : q ∈ owned s live) by (apply freeList_owned; rewrite Hfl; left).
      destruct (inv_owned_facts _ _ HI q Hq) as (Hrange & _). lia.
  - left. assert (Hpos : 0 < _reapableObjects s) by lia.
    rewrite (malloc_reap _ _ HI Hpos) in Hm. injection Hm as <- <-.
    repeat split; try assumption.
    destruct (position_facts _ _ HI) as [Hp _]. lia.
Qed.

Lemma malloc_Inv (s : Header) (live : list Z) (p : Z) (s' : Header) :
  Inv s live -> malloc s = OK (p, s') ->
  (p = 0 /\ s' = s) \/ (p <> 0 /\ Inv s' (p :: live)).
Proof.
  intros HI Hm.
  destruct (malloc_cases _ _ _ _ HI Hm)
    as [(Hr & -> & -> & Hp) | [(Hr & l & Hfl & -> & Hp) | (_ & _ & -> & ->)]].
  - right. split; [assumption | now apply Inv_reaped].
  - right. split; [assumption | now apply Inv_popped].
  - left. auto.
Qed.

Lemma free_Inv (s : Header) (live live' : list Z) (p : Z) (s' : Header) :
  Inv s live -> live ≡ₚ p :: live' -> free s p = OK s' -> Inv s' live'.
Proof.
  intros HI Hl Hf.
  destruct (scan (fun e => entry_addr e =? p) (_pinned s)) as [i|] eqn:Hscan.
  - rewrite (free_pinned _ _ _ _ HI Hl i Hscan) in Hf. injection Hf as <-.
    now apply (Inv_free_pinned _ live).
  - rewrite (free_unpinned _ _ _ _ HI Hl Hscan) in Hf. injection Hf as <-.
    now apply (Inv_free_unpinned _ live).
Qed.

Lemma pin_Inv (s : Header) (live : list Z) (p : Z) (s' : Header) :
  Inv s live -> pin s p = OK s' -> Inv s' live.
Proof.
  intros HI Hp.
  destruct (scan (fun e => e =? 0) (_pinned s)) as [i|] eqn:Hscan.
  - rewrite (pin_free_cell _ _ HI p i Hscan) in Hp. injection Hp as <-.
    now apply Inv_pin.
  - rewrite (pin_full _ _ HI p Hscan) in Hp. discriminate.
Qed.

Lemma normalized_in_superblock (s : Header) (p : Z) :
  Wf s -> in_superblock s p ->
  exists k, 0 <= k < _totalObjects s /\ normalized s p = slot s k /\
            slot s k <= p < slot s k + _objectSize s.
Proof.
  intros Hwf Hp.
  destruct (in_superblock_slot s Hwf p Hp) as (k & d & Hk & Hd & ->).
  exists k. split; [assumption|]. split; [|lia].
  pose proof (normalize_slot s Hwf k d Hk Hd) as Hn.
  rewrite (normalize_eq s Hwf) in Hn. now injection Hn.
Qed.

Lemma normalized_nonzero (s : Header) (p : Z) :
  Wf s -> in_superblock s p -> normalized s p <> 0.
Proof.
  intros Hwf Hp. destruct (normalized_in_superblock s p Hwf Hp) as (k & Hk & -> & _).
  pose proof (slot_range s Hwf k ltac:(lia)). lia.
Qed.

Lemma unpin_Inv (s : Header) (live : list Z) (p : Z) (s' : Header) :
  Inv s live -> in_superblock s p -> unpin s p = OK s' -> Inv s' live.
Proof.
  intros HI Hin Hu.
  pose proof (normalized_nonzero s p (inv_wf _ _ HI) Hin) as Hnz.
  destruct (scan (fun e => entry_addr e =? normalized s p) (_pinned s)) as [i|] eqn:Hscan.
  - destruct (Z.eq_dec (entry_flag (pinned_at s i)) 0) as [Hflag | Hflag].
    + rewrite (unpin_deferred _ _ HI p Hnz i Hscan Hflag) in Hu. injection Hu as <-.
      eapply Inv_unpin_deferred; eauto.
    + rewrite (unpin_in_use _ _ HI p i Hscan Hflag) in Hu. injection Hu as <-.
      eapply Inv_unpin_in_use; eauto.
  - rewrite (unpin_no_cell _ _ HI p Hscan) in Hu. discriminate.
Qed.

Lemma steps_Inv (pin_ok : Header -> Z -> Prop) (s0 s : Header) (live0 live : list Z) :
  Inv s0 live0 -> steps pin_ok s0 live0 s live -> Inv s live.
Proof.
  intros H0.
  induction 1 as [ | s live s' _ IH Hm | s live p s' _ IH Hm Hp
                 | s live live' p s' _ IH Hl Hf
                 | s live p s' _ IH Hin _ Hp | s live p s' _ IH Hin Hu].
  - assumption.
  - destruct (malloc_Inv _ _ _ _ IH Hm) as [[_ ->] | [Hp _]]; [assumption | congruence].
  - destruct (malloc_Inv _ _ _ _ IH Hm) as [[Hp' _] | [_ HI]]; [congruence | assumption].
  - eapply free_Inv; eauto.
  - eapply pin_Inv; eauto.
  - eapply unpin_Inv; eauto.
Qed.

Lemma constructed_Inv (s0 : Header) : constructed s0 -> Inv s0 [].
Proof.
  intros (hw & this_ & sz & bs & start & evs & Hsz & Hbs & Hst & Hfit & Hc).
  exact (construct_Inv _ _ _ _ _ _ _ Hsz Hbs Hst Hfit Hc).
Qed.

Lemma reachable_with_Inv (pin_ok : Header -> Z -> Prop) (s : Header) (live : list Z) :
  reachable_with pin_ok s live -> Inv s live.
Proof.
  intros (s0 & Hc & Hsteps).
  exact (steps_Inv _ _ _ _ _ (constructed_Inv _ Hc) Hsteps).
Qed.

(** ** Sequences of allocations and releases *)

Lemma same_consts_refl (s : Header) : same_consts s s.
Proof. repeat split. Qed.

Lemma same_consts_trans (s1 s2 s3 : Header) :
  same_consts s1 s2 -> same_consts s2 s3 -> same_consts s1 s3.
Proof.
  unfold same_consts.
  intros (H1 & H2 & H3 & H4 & H5 & H6 & H7) (G1 & G2 & G3 & G4 & G5 & G6 & G7).
  repeat split; congruence.
Qed.

Lemma avail_step (s : Header) (live : list Z) (p : Z) (rest : list Z) :
  Inv s live -> avail s = p :: rest ->
  exists s', malloc s = OK (p, s') /\ avail s' = rest /\ Inv s' (p :: live) /\
             _pinned s' = _pinned s /\ same_consts s s'.
Proof.
  intros HI Hav. pose proof (inv_reap _ _ HI) as Hr.
  destruct (Z.eq_dec (_reapableObjects s) 0) as [Hr0 | Hr0].
  - unfold avail, reap_slots in Hav. rewrite Hr0 in Hav. simpl in Hav.
    exists (popped s rest).
    split; [now apply (malloc_pop _ live) | ].
    split; [unfold avail, reap_slots; simpl; now rewrite Hr0 | ].
    split; [now apply Inv_popped | ].
    split; [reflexivity | repeat split].
  - assert (Hpos : 0 < _reapableObjects s) by lia.
    assert (Hn : Z.to_nat (_reapableObjects s) = S (Z.to_nat (_reapableObjects s - 1))) by lia.
    unfold avail, reap_slots in Hav. rewrite Hn in Hav. simpl in Hav.
    injection Hav as Hp Hrest.
    assert (Hp' : p = _position s) by lia. clear Hp. subst p.
    exists (reaped s).
    split; [now apply (malloc_reap _ live) | ].
    split.
    { rewrite <- Hrest. unfold avail, reap_slots. simpl. f_equal.
      rewrite <- seq_shift, map_map. apply map_ext. intros k. lia. }
    split; [now apply Inv_reaped | ].
    split; [reflexivity | repeat split].
Qed.

Lemma avail_nil (s : Header) (live : list Z) :
  Inv s live -> avail s = [] -> malloc s = OK (0, s).
Proof.
  intros HI Hav. pose proof (inv_reap _ _ HI) as Hr.
  unfold avail in Hav. apply app_eq_nil in Hav as [Hreap Hfl].
  apply (malloc_none _ live); [assumption | | assumption].
  unfold reap_slots in Hreap. apply map_eq_nil in Hreap.
  destruct (Z.to_nat (_reapableObjects s)) eqn:Hn; [lia | discriminate].
Qed.

Lemma mallocs_avail (n : nat) (s : Header) (live : list Z) :
  Inv s live -> (n <= length (avail s))%nat ->
  exists s', mallocs n s = OK (take n (avail s), s') /\
             avail s' = drop n (avail s) /\
             Inv s' (rev (take n (avail s)) ++ live) /\
             _pinned s' = _pinned s /\ same_consts s s'.
Proof.
  revert s live. induction n as [|n IH]; intros s live HI Hn.
  - exists s. simpl. rewrite drop_0.
    split; [reflexivity | ]. split; [reflexivity | ]. split; [assumption | ].
    split; [reflexivity | apply same_consts_refl].
  - destruct (avail s) as [|p rest] eqn:Hav; [simpl in Hn; lia|].
    destruct (avail_step _ _ _ _ HI Hav) as (s1 & Hm & Hav1 & HI1 & Hpin1 & Hc1).
    destruct (IH s1 (p :: live) HI1) as (s' & Hms & Hav' & HI' & Hpin' & Hc').
    { rewrite Hav1. simpl in Hn. lia. }
    exists s'. simpl. rewrite Hm. simpl. rewrite Hms. simpl.
    rewrite Hav1 in *.
    split; [reflexivity | ]. split; [assumption | ].
    split; [rewrite <- app_assoc; exact HI' | ].
    split; [congruence | eapply same_consts_trans; eauto].
Qed.

Lemma mallocs_exhausted (s : Header) (live : list Z) (n : nat) :
  Inv s live -> avail s = [] -> mallocs n s = OK (repeat 0 n, s).
Proof.
  intros HI Hav. induction n as [|n IH]; simpl; [reflexivity|].
  rewrite (avail_nil _ _ HI Hav). simpl. rewrite IH. reflexivity.
Qed.

(** Whatever a run of [malloc] returns was available at its start. *)
Lemma mallocs_results (n : nat) (s : Header) (live : list Z) (ps : list Z) (s' : Header) :
  Inv s live -> mallocs n s = OK (ps, s') ->
  forall p, p ∈ ps -> p = 0 \/ p ∈ avail s.
Proof.
  revert s live ps s'. induction n as [|n IH]; intros s live ps s' HI Hm p Hp.
  - simpl in Hm. injection Hm as <- <-. inversion Hp.
  - simpl in Hm. destruct (avail s) as [|q rest] eqn:Hav.
    + rewrite (avail_nil _ _ HI Hav) in Hm. simpl in Hm.
      rewrite (mallocs_exhausted _ _ n HI Hav) in Hm. simpl in Hm.
      injection Hm as <- <-. left.
      apply elem_of_cons in Hp as [-> | Hp]; [reflexivity|].
      apply list_elem_of_In, repeat_spec in Hp. assumption.
    + destruct (avail_step _ _ _ _ HI Hav) as (s1 & Hm1 & Hav1 & HI1 & _).
      rewrite Hm1 in Hm. simpl in Hm.
      destruct (mallocs n s1) as [[ps1 s2]|] eqn:Hms; simpl in Hm; [|discriminate].
      injection Hm as <- <-.
      apply elem_of_cons in Hp as [-> | Hp]; [right; left|].
      destruct (IH _ _ _ _ HI1 Hms p Hp) as [-> | Hin]; [now left | right].
      rewrite Hav1 in Hin. now right.
Qed.

(** Nothing [malloc] can hand out is live or parked in the Pin Table. *)
Lemma avail_not_owned (s : Header) (live : list Z) (p : Z) :
  Inv s live -> p ∈ avail s -> (p ∉ live) /\ (p ∉ deferred (_pinned s)).
Proof.
  intros HI Hp. pose proof (inv_nodup _ _ HI) as Hnd.
  pose proof (inv_wf _ _ HI) as Hwf. pose proof (inv_reap _ _ HI) as Hr.
  unfold avail in Hp. apply elem_of_app in Hp as [Hp | Hp].
  - assert (Hno : ~ used_slot s p).
    { unfold reap_slots in Hp. apply list_elem_of_fmap in Hp as (k & -> & Hk).
      intros (j & Hj & Heq). rewrite (inv_pos _ _ HI) in Heq.
      unfold slot in Heq. destruct Hwf. nia. }
    split; intros Hin; apply Hno, (inv_slots _ _ HI).
    + now apply live_owned.
    + now apply deferred_owned.
  - unfold owned in Hnd. apply NoDup_app in Hnd as (_ & Hlive & Hnd).
    apply NoDup_app in Hnd as (_ & Hfl & _).
    split; intros Hin.
    + apply (Hlive p Hin). apply elem_of_app. now left.
    + now apply (Hfl p Hp).
Qed.

Lemma scan_zeroed (p : Z) :
  p <> 0 -> scan (fun e => entry_addr e =? p) zeroed = None.
Proof.
  intros Hp. apply scan_no_hit. intros k _.
  unfold zeroed. rewrite nth_repeat.
  change (entry_addr 0) with 0. lia.
Qed.

Lemma reclaimed_pinned (s : Header) (p : Z) : _pinned (reclaimed s p) = _pinned s.
Proof. unfold reclaimed. now destruct (_ =? _). Qed.

Lemma reclaimed_consts (s : Header) (p : Z) : same_consts s (reclaimed s p).
Proof. unfold reclaimed. destruct (_ =? _); repeat split. Qed.

(** With nothing pinned, releasing live allocations in any order succeeds. *)
Lemma frees_zeroed (qs : list Z) (s : Header) (live rest : list Z) :
  Inv s live -> live ≡ₚ qs ++ rest -> _pinned s = zeroed ->
  exists s', frees qs s = OK s' /\ Inv s' rest /\ _pinned s' = zeroed /\
             same_consts s s'.
Proof.
  revert s live. induction qs as [|q qs IH]; intros s live HI Hl Hz.
  - exists s. simpl in *.
    split; [reflexivity | ]. split; [ | split; [assumption | apply same_consts_refl]].
    destruct HI as [Hwf Hlen Hrange Hrb Hpos Hfree Hnd Hslots Hcount Hfull].
    constructor; try assumption; unfold owned in *.
    + now rewrite <- Hl.
    + intros p Hp. apply Hslots. now rewrite Hl.
    + now rewrite <- Hl.
  - simpl in Hl.
    destruct (released_facts _ _ _ _ HI Hl) as (Hq & _).
    assert (Hscan : scan (fun e => entry_addr e =? q) (_pinned s) = None)
      by (rewrite Hz; apply scan_zeroed; lia).
    pose proof (free_unpinned _ _ _ _ HI Hl Hscan) as Hf.
    pose proof (Inv_free_unpinned _ _ _ _ HI Hl) as HI1.
    destruct (IH (reclaimed s q) (qs ++ rest) HI1 (reflexivity _))
      as (s' & Hfs & HI' & Hz' & Hc').
    { now rewrite reclaimed_pinned. }
    exists s'. simpl. rewrite Hf. simpl.
    split; [assumption | ]. split; [assumption | ]. split; [assumption | ].
    apply (same_consts_trans _ _ _ (reclaimed_consts s q) Hc').
Qed.

(** A drained superblock with an untouched Pin Table is the fresh one. *)
Lemma drained_unique (s0 s : Header) :
  same_consts s0 s -> Inv s [] -> _pinned s = _pinned s0 ->
  deferred (_pinned s0) = [] ->
  _reapableObjects s0 = _totalObjects s0 -> _objectsFree s0 = _totalObjects s0 ->
  _freeList s0 = [] -> _position s0 = _start s0 ->
  s = s0.
Proof.
  intros (H1 & H2 & H3 & H4 & H5 & H6 & H7) HI Hpin Hd Hr0 Hf0 Hfl0 Hp0.
  pose proof (inv_counts _ _ HI) as Hcnt. pose proof (inv_free _ _ HI) as Hfree.
  pose proof (inv_pos _ _ HI) as Hpos. pose proof (inv_full _ _ HI) as Hfull.
  rewrite Hpin, Hd in Hcnt. simpl in Hcnt.
  destruct Hfull as [Hr Hfl]; [lia|].
  rewrite Hr in Hpos. unfold slot in Hpos.
  assert (Hf : _objectsFree s = _totalObjects s) by (rewrite Hfl in Hfree; simpl in Hfree; lia).
  assert (Hp : _position s = _start s) by lia.
  destruct s, s0. simpl in *. congruence.
Qed.

(** ** Further consequences of the invariant *)

Lemma malloc_consts (s : Header) (live : list Z) (p : Z) (s' : Header) :
  Inv s live -> malloc s = OK (p, s') -> same_consts s s' /\ _pinned s' = _pinned s.
Proof.
  intros HI Hm.
  destruct (malloc_cases _ _ _ _ HI Hm)
    as [(_ & _ & -> & _) | [(_ & l & _ & -> & _) | (_ & _ & _ & ->)]];
    split; try reflexivity; repeat split.
Qed.

Lemma free_consts (s : Header) (live live' : list Z) (p : Z) (s' : Header) :
  Inv s live -> live ≡ₚ p :: live' -> free s p = OK s' -> same_consts s s'.
Proof.
  intros HI Hl Hf.
  destruct (scan (fun e => entry_addr e =? p) (_pinned s)) as [i|] eqn:Hscan.
  - rewrite (free_pinned _ _ _ _ HI Hl i Hscan) in Hf. injection Hf as <-. repeat split.
  - rewrite (free_unpinned _ _ _ _ HI Hl Hscan) in Hf. injection Hf as <-.
    apply reclaimed_consts.
Qed.

Lemma pin_consts (s : Header) (live : list Z) (p : Z) (s' : Header) :
  Inv s live -> pin s p = OK s' -> same_consts s s'.
Proof.
  intros HI Hp.
  destruct (scan (fun e => e =? 0) (_pinned s)) as [i|] eqn:Hscan.
  - rewrite (pin_free_cell _ _ HI p i Hscan) in Hp. injection Hp as <-. repeat split.
  - rewrite (pin_full _ _ HI p Hscan) in Hp. discriminate.
Qed.

Lemma unpin_consts (s : Header) (live : list Z) (p : Z) (s' : Header) :
  Inv s live -> in_superblock s p -> unpin s p = OK s' -> same_consts s s'.
Proof.
  intros HI Hin Hu.
  pose proof (normalized_nonzero s p (inv_wf _ _ HI) Hin) as Hnz.
  destruct (scan (fun e => entry_addr e =? normalized s p) (_pinned s)) as [i|] eqn:Hscan.
  - destruct (Z.eq_dec (entry_flag (pinned_at s i)) 0) as [Hflag | Hflag].
    + rewrite (unpin_deferred _ _ HI p Hnz i Hscan Hflag) in Hu. injection Hu as <-.
      pose proof (reclaimed_consts s (normalized s p)) as Hc.
      unfold same_consts in *. simpl. exact Hc.
    + rewrite (unpin_in_use _ _ HI p i Hscan Hflag) in Hu. injection Hu as <-. repeat split.
  - rewrite (unpin_no_cell _ _ HI p Hscan) in Hu. discriminate.
Qed.

Lemma steps_consts (pin_ok : Header -> Z -> Prop) (s0 s : Header) (live0 live : list Z) :
  Inv s0 live0 -> steps pin_ok s0 live0 s live -> same_consts s0 s.
Proof.
  intros H0 Hs. induction Hs as [ | s live s' Hs IH Hm | s live p s' Hs IH Hm Hp
                 | s live live' p s' Hs IH Hl Hf
                 | s live p s' Hs IH Hin _ Hp | s live p s' Hs IH Hin Hu];
    [apply same_consts_refl | | | | | ];
    pose proof (steps_Inv _ _ _ _ _ H0 Hs) as HI;
    apply (same_consts_trans _ _ _ IH).
  - apply (malloc_consts _ _ _ _ HI Hm).
  - apply (malloc_consts _ _ _ _ HI Hm).
  - apply (free_consts _ _ _ _ _ HI Hl Hf).
  - apply (pin_consts _ _ _ _ HI Hp).
  - apply (unpin_consts _ _ _ _ HI Hin Hu).
Qed.

Lemma normalize_same_consts (s s' : Header) (ptr : Z) :
  same_consts s s' -> normalize s' ptr = normalize s ptr.
Proof.
  intros (H1 & H2 & H3 & H4 & H5 & H6 & H7).
  unfold normalize, isValid. now rewrite H1, H2, H3, H4, H6.
Qed.

Lemma frees_app (qs rs : list Z) (s : Header) :
  frees (qs ++ rs) s = (s' ← frees qs s; frees rs s').
Proof.
  revert s. induction qs as [|q qs IH]; intros s; simpl; [reflexivity|].
  destruct (free s q) as [s1|]; simpl; [apply IH | reflexivity].
Qed.

(** Every address [malloc] returns is the base of a slot. *)
Lemma malloc_slot (s : Header) (live : list Z) (p : Z) (s' : Header) :
  Inv s live -> malloc s = OK (p, s') -> p <> 0 ->
  exists k, 0 <= k < _totalObjects s /\ p = slot s k.
Proof.
  intros HI Hm Hp. pose proof (inv_reap _ _ HI) as Hr.
  destruct (malloc_cases _ _ _ _ HI Hm)
    as [(Hr0 & -> & _ & _) | [(_ & l & Hfl & _ & _) | (_ & _ & -> & _)]].
  - exists (_totalObjects s - _reapableObjects s). split; [lia | apply (inv_pos _ _ HI)].
  - assert (Hin : p ∈ owned s live) by (apply freeList_owned; rewrite Hfl; left).
    destruct (inv_slots _ _ HI p Hin) as (k & Hk & ->). exists k. split; [lia | reflexivity].
  - contradiction.
Qed.

Lemma malloc_total (s : Header) (live : list Z) :
  Inv s live -> exists p s', malloc s = OK (p, s').
Proof.
  intros HI. destruct (avail s) as [|p rest] eqn:Hav.
  - exists 0, s. now apply (avail_nil _ live).
  - destruct (avail_step _ _ _ _ HI Hav) as (s' & Hm & _). now exists p, s'.
Qed.

Lemma free_total (s : Header) (live : list Z) (p : Z) :
  Inv s live -> p ∈ live -> exists s', free s p = OK s'.
Proof.
  intros HI Hp. apply elem_of_Permutation in Hp as (live' & Hl).
  destruct (scan (fun e => entry_addr e =? p) (_pinned s)) as [i|] eqn:Hscan.
  - eexists. apply (free_pinned _ _ _ _ HI Hl i Hscan).
  - eexists. apply (free_unpinned _ _ _ _ HI Hl Hscan).
Qed.

(** ** A block used to exercise the theorems *)

Lemma demo_construct : construct no_hw 1024 64 6400 4096 zeroed = OK (demo_block, []).
Proof. reflexivity. Qed.

Lemma demo_constructed : constructed demo_block.
Proof.
  exists no_hw, 1024, 64, 6400, 4096, [].
  repeat split; try lia; try reflexivity.
Qed.

Lemma demo_reachable : reachable demo_block [].
Proof. exists demo_block. split; [apply demo_constructed | constructor]. Qed.

Lemma demo_reachable_1 : reachable (reaped demo_block) [4096].
Proof.
  exists demo_block. split; [apply demo_constructed | ].
  apply (S_malloc _ _ _ demo_block [] 4096 (reaped demo_block));
    [constructor | reflexivity | discriminate].
Qed.

Lemma pinned_block_reachable : reachable pinned_block [4160; 4096].
Proof.
  exists demo_block. split; [apply demo_constructed | ].
  apply (S_pin _ _ _ (reaped (reaped demo_block)) _ 4096);
    [ | unfold in_superblock; simpl; lia | exact I | reflexivity].
  apply (S_malloc _ _ _ (reaped demo_block) _ 4160); [ | reflexivity | discriminate].
  apply (S_malloc _ _ _ demo_block [] 4096); [constructor | reflexivity | discriminate].
Qed.

Lemma full_block_3_reachable : reachable full_block_3 [4224; 4160; 4096].
Proof.
  exists (mkHeader 1024 (Z.lxor MAGIC_NUMBER 1024) 64 true 3 3 3 4096 4096 zeroed 0 []).
  split.
  - exists no_hw, 1024, 64, 192, 4096, []. repeat split; try lia; reflexivity.
  - apply (S_malloc _ _ _ (mkHeader 1024 (Z.lxor MAGIC_NUMBER 1024) 64 true 3 1 1
                             4096 4224 zeroed 0 []) _ 4224);
      [ | reflexivity | discriminate].
    apply (S_malloc _ _ _ (mkHeader 1024 (Z.lxor MAGIC_NUMBER 1024) 64 true 3 2 2
                             4096 4160 zeroed 0 []) _ 4160);
      [ | reflexivity | discriminate].
    apply (S_malloc _ _ _ (mkHeader 1024 (Z.lxor MAGIC_NUMBER 1024) 64 true 3 3 3
                             4096 4096 zeroed 0 []) [] 4096);
      [constructor | reflexivity | discriminate].
Qed.

Lemma released_block_reachable : reachable released_block [4224; 4096].
Proof.
  destruct full_block_3_reachable as (s0 & Hc & Hsteps).
  exists s0. split; [assumption | ].
  apply (S_free _ _ _ full_block_3 [4224; 4160; 4096] [4224; 4096] 4160);
    [assumption | apply Permutation_swap | reflexivity].
Qed.

Lemma pinned_free_block_steps :
  steps (fun _ _ => True) demo_block [] pinned_free_block [].
Proof.
  apply (S_pin _ _ _ demo_block [] 4096);
    [constructor | unfold in_superblock; simpl; lia | exact I | reflexivity].
Qed.

Lemma two_pins_block_reachable : reachable_with pin_fresh two_pins_block [4160; 4096].
Proof.
  exists demo_block. split; [apply demo_constructed | ].
  apply (S_pin _ _ _ pinned_block _ 4160);
    [ | unfold in_superblock; simpl; lia | | reflexivity].
  - apply (S_pin _ _ _ (reaped (reaped demo_block)) _ 4096);
      [ | unfold in_superblock; simpl; lia | | reflexivity].
    + apply (S_malloc _ _ _ (reaped demo_block) _ 4160); [ | reflexivity | discriminate].
      apply (S_malloc _ _ _ demo_block [] 4096); [constructor | reflexivity | discriminate].
    + intros obj _ Hin.
      change (pinned_addrs (_pinned (reaped (reaped demo_block)))) with (@nil Z) in Hin.
      inversion Hin.
  - intros obj Hobj Hin.
    assert (obj = 4160) as -> by (vm_compute in Hobj; congruence).
    change (pinned_addrs (_pinned pinned_block)) with [4096] in Hin.
    apply elem_of_cons in Hin as [Heq | Hin]; [discriminate | inversion Hin].
Qed.

(** * The claims *)

(** C2. In every reachable state [malloc] first serves the Reap Cursor:
    with [_reapableObjects > 0] it returns [_position], advances it by
    [_objectSize] and decrements [_reapableObjects] and [_objectsFree];
    otherwise it pops the head of a non-empty Free List and decrements
    [_objectsFree]; it returns the null pointer exactly when both sources
    are empty; every non-null result is aligned to [Alignment] and is
    [_start + k * _objectSize] for some [0 <= k < _totalObjects]; the call
    never fails. *)
Theorem C2_allocate_reap_then_free_list (s : Header) (live : list Z) :
  reachable s live ->
  (0 < _reapableObjects s -> malloc s = OK (_position s, reaped s)) /\
  (_reapableObjects s = 0 ->
   forall p l, _freeList s = p :: l -> malloc s = OK (p, popped s l)) /\
  (forall p s', malloc s = OK (p, s') ->
                (p = 0 <-> _reapableObjects s = 0 /\ _freeList s = [])) /\
  (forall p s', malloc s = OK (p, s') -> p <> 0 ->
                p mod Alignment = 0 /\
                exists k, 0 <= k < _totalObjects s /\ p = _start s + k * _objectSize s) /\
  (exists p s', malloc s = OK (p, s')).
Proof.
  intros Hreach. pose proof (reachable_with_Inv _ _ _ Hreach) as HI.
  split; [intros Hr; now apply (malloc_reap _ live) | ].
  split; [intros Hr p l Hfl; now apply (malloc_pop _ live) | ].
  split; [ | split].
  - intros p s' Hm.
    destruct (malloc_cases _ _ _ _ HI Hm)
      as [(Hr & _ & _ & Hp) | [(Hr & l & Hfl & _ & Hp) | (Hr & Hfl & Hp & _)]].
    + split; [contradiction | intros [Hr0 _]; lia].
    + split; [contradiction | intros [_ Hnil]; congruence].
    + split; auto.
  - intros p s' Hm Hp.
    destruct (malloc_slot _ _ _ _ HI Hm Hp) as (k & Hk & ->).
    split; [apply (slot_aligned s (inv_wf _ _ HI) k Hk) | ].
    exists k. split; [assumption | reflexivity].
  - now apply (malloc_total _ live).
Qed.

Lemma C2_witness :
  reachable demo_block [] /\
  malloc demo_block = OK (_position demo_block, reaped demo_block).
Proof.
  split; [apply demo_reachable | ].
  apply (C2_allocate_reap_then_free_list demo_block [] demo_reachable).
  reflexivity.
Defined.

(** C4. After every call of a sequence of [malloc] and [free] calls issued
    from a freshly constructed superblock (each [free] given a live
    allocation; the sequence may also contain [pin] and [unpin]):
    [0 <= _objectsFree <= _totalObjects]; the live pointers are pairwise
    distinct slot bases, so their slots do not overlap; and the next
    [malloc], or [free] of a live pointer, does not fail. *)
Theorem C4_counter_bounds_and_disjoint_slots (s : Header) (live : list Z) :
  reachable s live ->
  0 <= _objectsFree s <= _totalObjects s /\
  NoDup live /\
  (forall p, p ∈ live ->
             exists k, 0 <= k < _totalObjects s /\ p = _start s + k * _objectSize s) /\
  (forall p q, p ∈ live -> q ∈ live -> p <> q ->
               p + _objectSize s <= q \/ q + _objectSize s <= p) /\
  (exists p s', malloc s = OK (p, s')) /\
  (forall p, p ∈ live -> exists s', free s p = OK s').
Proof.
  intros Hreach. pose proof (reachable_with_Inv _ _ _ Hreach) as HI.
  pose proof (inv_wf _ _ HI) as Hwf. pose proof (inv_reap _ _ HI) as Hr.
  assert (Hslot : forall p, p ∈ live ->
            exists k, 0 <= k < _totalObjects s /\ p = _start s + k * _objectSize s).
  { intros p Hp. destruct (inv_slots _ _ HI p (live_owned _ _ _ Hp)) as (k & Hk & ->).
    exists k. split; [lia | reflexivity]. }
  split; [apply (inv_free_bounds _ _ HI) | ].
  split; [pose proof (inv_nodup _ _ HI) as Hnd; now apply NoDup_app in Hnd as (? & _) | ].
  split; [assumption | ].
  split; [ | split; [now apply (malloc_total _ live) | intros p; now apply free_total]].
  intros p q Hp Hq Hne.
  destruct (Hslot p Hp) as (j & Hj & ->). destruct (Hslot q Hq) as (k & Hk & ->).
  destruct Hwf. assert (j <> k) by congruence. nia.
Qed.

Lemma C4_witness :
  reachable released_block [4224; 4096] /\
  0 <= _objectsFree released_block <= _totalObjects released_block /\
  (4224 + _objectSize released_block <= 4096 \/
   4096 + _objectSize released_block <= 4224) /\
  exists s', free released_block 4224 = OK s'.
Proof.
  destruct (C4_counter_bounds_and_disjoint_slots released_block [4224; 4096]
              released_block_reachable) as (Hb & _ & _ & Hdis & _ & Hfree).
  split; [apply released_block_reachable | ]. split; [exact Hb | ].
  split; [ | apply Hfree; left].
  apply Hdis; [left | right; left | discriminate].
Defined.

(** C9. For every non-null pointer [p] returned by [malloc] in a reachable
    state and every offset [0 <= k < _objectSize], [normalize (p + k)] is
    [p]; with [k = 0], [normalize p = p].  The statement covers both
    branches of [normalize], which is chosen by [_objectSizeIsPowerOfTwo]. *)
Theorem C9_normalize_round_trip (s : Header) (live : list Z) (p : Z) (s' : Header) :
  reachable s live -> malloc s = OK (p, s') -> p <> 0 ->
  normalize s' p = OK p /\
  forall k, 0 <= k < _objectSize s' -> normalize s' (p + k) = OK p.
Proof.
  intros Hreach Hm Hp. pose proof (reachable_with_Inv _ _ _ Hreach) as HI.
  pose proof (inv_wf _ _ HI) as Hwf.
  destruct (malloc_slot _ _ _ _ HI Hm Hp) as (j & Hj & ->).
  destruct (malloc_consts _ _ _ _ HI Hm) as [Hc _].
  assert (Hall : forall k, 0 <= k < _objectSize s' ->
                           normalize s' (slot s j + k) = OK (slot s j)).
  { intros k Hk. rewrite (normalize_same_consts s s' _ Hc).
    apply normalize_slot; [assumption | assumption | ].
    destruct Hc as (_ & _ & Hsz & _). now rewrite <- Hsz. }
  split; [ | assumption].
  rewrite <- (Z.add_0_r (slot s j)) at 1. apply Hall.
  destruct Hc as (_ & _ & Hsz & _). rewrite Hsz. destruct Hwf. lia.
Qed.

Lemma C9_witness :
  reachable demo_block [] /\ malloc demo_block = OK (4096, reaped demo_block) /\
  normalize (reaped demo_block) (4096 + 63) = OK 4096.
Proof.
  split; [apply demo_reachable | ]. split; [reflexivity | ].
  apply (C9_normalize_round_trip demo_block [] 4096 (reaped demo_block)
           demo_reachable eq_refl ltac:(discriminate)).
  simpl. lia.
Defined.

(** The two branches of [normalize] on concrete blocks: slots of 64 bytes
    take the mask, slots of 48 bytes take the remainder. *)
Example normalize_mask_path :
  ('(s, _) ← construct no_hw 1024 64 6400 4096 zeroed;
   '(_, s) ← malloc s;
   '(p, s) ← malloc s;
   q ← normalize s (p + 5);
   OK (_objectSizeIsPowerOfTwo s, p, q)) = OK (true, 4160, 4160).
Proof. reflexivity. Qed.

Example normalize_modulo_path :
  ('(s, _) ← construct no_hw 1024 48 4800 4096 zeroed;
   '(_, s) ← malloc s;
   '(p, s) ← malloc s;
   q ← normalize s (p + 47);
   OK (_objectSizeIsPowerOfTwo s, p, q)) = OK (false, 4144, 4144).
Proof. reflexivity. Qed.

(** C10. A superblock constructed with [bufferSize < objectSize] has
    [_totalObjects = _objectsFree = _reapableObjects = 0]; every call to
    [malloc], in the fresh state and in every state reached from it,
    returns the null pointer, leaves the state as it is and does not fail. *)
Theorem C10_zero_capacity (hw : Hardware) (this_ sz bufferSize start : Z)
    (s : Header) (evs : list Event) :
  0 <= bufferSize < sz -> sz < 2 ^ 64 -> 0 < start -> start + bufferSize < 2 ^ 64 ->
  construct hw this_ sz bufferSize start zeroed = OK (s, evs) ->
  _totalObjects s = 0 /\ _objectsFree s = 0 /\ _reapableObjects s = 0 /\
  (forall n, mallocs n s = OK (repeat 0 n, s)) /\
  (forall s' live, steps (fun _ _ => True) s [] s' live -> malloc s' = OK (0, s')).
Proof.
  intros Hbuf Hsz Hstart Hfit Hc.
  assert (HI : Inv s []).
  { apply (construct_Inv hw this_ sz bufferSize start s evs); (assumption || lia). }
  destruct (construct_fields _ _ _ _ _ _ _ _ Hc)
    as (_ & _ & _ & _ & Htot & Hr & Hf & _).
  rewrite Z.div_small in Htot, Hr, Hf by lia.
  change (u32 0) with 0 in *.
  assert (Hnone : forall s' live, Inv s' live -> _totalObjects s' = 0 ->
                                  malloc s' = OK (0, s')).
  { intros s' live HI' Htot'. pose proof (inv_reap _ _ HI') as Hr'.
    pose proof (inv_counts _ _ HI') as Hcnt.
    apply (malloc_none _ live); [assumption | lia | ].
    destruct (_freeList s'); [reflexivity | simpl in Hcnt; lia]. }
  repeat split; try assumption.
  - intros n. induction n as [|n IH]; simpl; [reflexivity | ].
    rewrite (Hnone s [] HI Htot). simpl. now rewrite IH.
  - intros s' live Hsteps. apply (Hnone s' live).
    + exact (steps_Inv _ _ _ _ _ HI Hsteps).
    + destruct (steps_consts _ _ _ _ _ HI Hsteps) as (_ & _ & _ & _ & Ht & _). congruence.
Qed.

Lemma C10_witness :
  construct no_hw 1024 64 48 4096 zeroed
  = OK (mkHeader 1024 (Z.lxor MAGIC_NUMBER 1024) 64 true 0 0 0 4096 4096 zeroed 0 [], []) /\
  mallocs 3 (mkHeader 1024 (Z.lxor MAGIC_NUMBER 1024) 64 true 0 0 0 4096 4096 zeroed 0 [])
  = OK ([0; 0; 0], mkHeader 1024 (Z.lxor MAGIC_NUMBER 1024) 64 true 0 0 0 4096 4096 zeroed 0 []).
Proof.
  split; [reflexivity | ].
  apply (C10_zero_capacity no_hw 1024 64 48 4096 _ []); try lia; reflexivity.
Defined.

Lemma cleared_id (s : Header) :
  _freeList s = [] -> _objectsFree s = _totalObjects s ->
  _reapableObjects s = _totalObjects s -> _position s = _start s ->
  cleared s = s.
Proof.
  destruct s. unfold cleared. simpl. intros -> -> -> ->. reflexivity.
Qed.

Lemma set_pinned_id (s : Header) : set_pinned s (_pinned s) = s.
Proof. now destruct s. Qed.

(** A drained superblock differs from the fresh one in its Pin Table only. *)
Lemma drained_up_to_pins (s0 s : Header) :
  same_consts s0 s ->
  _reapableObjects s = _totalObjects s -> _objectsFree s = _totalObjects s ->
  _freeList s = [] -> _position s = _start s ->
  _reapableObjects s0 = _totalObjects s0 -> _objectsFree s0 = _totalObjects s0 ->
  _freeList s0 = [] -> _position s0 = _start s0 ->
  s = set_pinned s0 (_pinned s).
Proof.
  destruct s, s0. unfold same_consts, set_pinned. simpl.
  intros Hsame Hr Hf Hfl Hp Hr0 Hf0 Hfl0 Hp0.
  repeat match goal with H : _ /\ _ |- _ => destruct H end.
  f_equal; congruence.
Qed.

(** C3, as stated, fails: [clear] does not touch the Pin Table, and [pin]
    may run on a superblock with nothing allocated.  After [pin(4096)] on
    the fresh block, [_objectsFree = _totalObjects] holds in a reachable
    state that is not a freshly constructed one, and the difference shows:
    allocating and releasing slot 4096 leaves 99 free slots there (the
    release is deferred), 100 on the fresh block. *)
Lemma C3_counterexample :
  reachable pinned_free_block [] /\
  _objectsFree pinned_free_block = _totalObjects pinned_free_block /\
  ~ constructed pinned_free_block /\
  (exists s1 s2, malloc pinned_free_block = OK (4096, s1) /\
                 free s1 4096 = OK s2 /\ _objectsFree s2 = 99) /\
  (exists s1, malloc demo_block = OK (4096, s1) /\
              free s1 4096 = OK demo_block /\ _objectsFree demo_block = 100).
Proof.
  split; [exists demo_block; split;
          [apply demo_constructed | apply pinned_free_block_steps] | ].
  split; [reflexivity | ]. split; [ | split].
  - intros (hw & this_ & sz & bs & start & evs & _ & _ & _ & _ & Hc).
    destruct (construct_fields _ _ _ _ _ _ _ _ Hc)
      as (_ & _ & _ & _ & _ & _ & _ & _ & _ & Hpin & _).
    vm_compute in Hpin. discriminate Hpin.
  - eexists _, _. split; [reflexivity | ]. split; reflexivity.
  - eexists. split; [reflexivity | ]. split; reflexivity.
Qed.

(** C3, amended.  Let [s0] be a freshly constructed superblock.  In every
    state reached from it, [_objectsFree = _totalObjects] implies that the
    Free List is empty, that [_reapableObjects = _totalObjects], that the
    cursor is at the aligned start of the slot region, that nothing is live,
    and that the state is the one [clear] leaves: it is [s0] except for the
    Pin Table, whose occupied cells all carry the in-use flag, and it is
    [s0] itself, a freshly constructed superblock, when the Pin Table is
    empty.  In particular [_totalObjects] calls to [malloc] succeed, and
    releasing the returned addresses in any order, with nothing pinned,
    brings the superblock back to [s0]: the last [free] finds
    [_objectsFree + 1 = _totalObjects] and ends in [clear], and the next
    [malloc] returns the address of the very first allocation. *)
Theorem C3_full_drain_reset (s0 : Header) :
  constructed s0 ->
  (forall s live, steps (fun _ _ => True) s0 [] s live ->
     _objectsFree s = _totalObjects s ->
     _freeList s = [] /\ _reapableObjects s = _totalObjects s /\
     _position s = HL.align Alignment (_start s) /\ _position s = _start s /\
     live = [] /\ clear s = OK s /\
     s = set_pinned s0 (_pinned s) /\ deferred (_pinned s) = [] /\
     (_pinned s = zeroed -> s = s0 /\ constructed s)) /\
  (exists ps s1,
     mallocs (Z.to_nat (_totalObjects s0)) s0 = OK (ps, s1) /\
     length ps = Z.to_nat (_totalObjects s0) /\
     (forall qs, qs ≡ₚ ps -> frees qs s1 = OK s0) /\
     (forall qs q, qs ++ [q] ≡ₚ ps ->
        exists sm, frees qs s1 = OK sm /\
                   _objectsFree sm + 1 = _totalObjects sm /\
                   free sm q = clear (pushed sm q) /\ free sm q = OK s0) /\
     (forall p, head ps = Some p ->
        p = _start s0 /\ exists s2, malloc s0 = OK (p, s2))).
Proof.
  intros Hc. pose proof (constructed_Inv _ Hc) as HI0.
  pose proof (inv_wf _ _ HI0) as Hwf0. pose proof Hc as Hfresh.
  destruct Hc as (hw & this_ & sz & bs & start & evs & _ & _ & _ & _ & Hc).
  destruct (construct_fields _ _ _ _ _ _ _ _ Hc)
    as (_ & _ & _ & _ & Htot & Hr & Hf & Hst & Hpos & Hpin & Hfl & _).
  split.
  - intros s live Hsteps Hfull.
    pose proof (steps_Inv _ _ _ _ _ HI0 Hsteps) as HI.
    pose proof (inv_wf _ _ HI) as Hwf.
    destruct (inv_full _ _ HI Hfull) as [Hr' Hfl'].
    pose proof (inv_pos _ _ HI) as Hp. rewrite Hr' in Hp. unfold slot in Hp.
    pose proof (inv_counts _ _ HI) as Hcnt.
    assert (Hpos' : _position s = _start s) by lia.
    assert (Hal : HL.align Alignment (_start s) = _start s).
    { apply align_fixpoint; [ | apply (wf_start_aligned _ Hwf)].
      pose proof (slot_range s Hwf 0) as H. unfold slot in H. destruct Hwf. lia. }
    assert (Hsame : s = set_pinned s0 (_pinned s)).
    { apply drained_up_to_pins; try assumption; try congruence.
      exact (steps_consts _ _ _ _ _ HI0 Hsteps). }
    assert (Hnodef : deferred (_pinned s) = []).
    { destruct (deferred (_pinned s)); [reflexivity | ].
      destruct live; simpl in Hcnt; lia. }
    assert (Hempty : _pinned s = zeroed -> s = s0 /\ constructed s).
    { intros Hz. assert (Heq : s = s0).
      { rewrite Hz in Hsame. rewrite Hsame, <- Hpin. apply set_pinned_id. }
      split; [assumption | now rewrite Heq]. }
    assert (Hlive : live = []).
    { destruct live; [reflexivity | simpl in Hcnt; lia]. }
    assert (Hclear : clear s = OK s).
    { rewrite (clear_eq s Hwf). f_equal. apply cleared_id; congruence. }
    split; [assumption | ]. split; [assumption | ]. split; [congruence | ].
    split; [assumption | ]. split; [exact Hlive | ]. split; [exact Hclear | ].
    split; [exact Hsame | ]. split; [exact Hnodef | exact Hempty].
  - assert (Hav : avail s0 = reap_slots s0) by (unfold avail; rewrite Hfl; apply app_nil_r).
    assert (Hlen : length (avail s0) = Z.to_nat (_totalObjects s0)).
    { rewrite Hav. unfold reap_slots. rewrite length_map, length_seq. congruence. }
    destruct (mallocs_avail (Z.to_nat (_totalObjects s0)) s0 [] HI0 ltac:(lia))
      as (s1 & Hms & _ & HI1 & Hpin1 & Hc1).
    rewrite firstn_all2 in Hms, HI1 by lia. rewrite app_nil_r in HI1.
    assert (Hz1 : _pinned s1 = zeroed) by congruence.
    assert (Hback : forall s, same_consts s1 s -> Inv s [] -> _pinned s = zeroed -> s = s0).
    { intros s Hcs HIs Hzs. apply drained_unique; try congruence.
      - apply (same_consts_trans _ _ _ Hc1 Hcs).
      - rewrite Hpin. apply deferred_zeroed. }
    exists (avail s0), s1. split; [assumption | ]. split; [assumption | ].
    split; [ | split].
    + intros qs Hperm.
      destruct (frees_zeroed qs s1 (rev (avail s0)) [] HI1) as (s2 & Hfs & HI2 & Hz2 & Hc2).
      { rewrite app_nil_r, Hperm. symmetry. apply Permutation_rev. }
      { assumption. }
      rewrite Hfs. f_equal. now apply Hback.
    + intros qs q Hperm.
      destruct (frees_zeroed qs s1 (rev (avail s0)) [q] HI1) as (sm & Hfs & HIm & Hzm & Hcm).
      { rewrite Hperm. symmetry. apply Permutation_rev. }
      { assumption. }
      assert (Hl : [q] ≡ₚ q :: []) by reflexivity.
      destruct (released_facts _ _ _ _ HIm Hl) as (Hq & _).
      assert (Hscan : scan (fun e => entry_addr e =? q) (_pinned sm) = None)
        by (rewrite Hzm; apply scan_zeroed; lia).
      pose proof (free_unpinned _ _ _ _ HIm Hl Hscan) as Hfree.
      pose proof (Inv_free_unpinned _ _ _ _ HIm Hl) as HI2.
      pose proof (inv_counts _ _ HIm) as Hcnt. pose proof (inv_free _ _ HIm) as Hfm.
      rewrite Hzm, deferred_zeroed in Hcnt. simpl in Hcnt.
      assert (Hfull : _objectsFree sm + 1 = _totalObjects sm) by lia.
      assert (Hrec : reclaimed sm q = cleared sm).
      { unfold reclaimed. now rewrite Hfull, Z.eqb_refl. }
      exists sm. split; [assumption | ]. split; [assumption | ].
      assert (Hend : free sm q = OK s0).
      { rewrite Hfree. f_equal. apply Hback.
        - apply (same_consts_trans _ _ _ Hcm (reclaimed_consts sm q)).
        - assumption.
        - now rewrite reclaimed_pinned. }
      split; [ | assumption].
      rewrite Hfree, Hrec. symmetry.
      apply (clear_eq (pushed sm q)).
      apply (Wf_same_consts sm); [repeat split | apply (inv_wf _ _ HIm)].
    + intros p Hhead.
      destruct (avail s0) as [|p' rest] eqn:Hav0; [discriminate | ].
      assert (p' = p) by (simpl in Hhead; congruence). subst p'.
      destruct (avail_step _ _ _ _ HI0 Hav0) as (s2 & Hm & _).
      split; [ | now exists s2].
      unfold reap_slots in Hav.
      destruct (Z.to_nat (_reapableObjects s0)); [discriminate Hav | ].
      simpl in Hav. injection Hav as Hp _. lia.
Qed.

Lemma C3_witness :
  constructed demo_block /\
  (pinned_free_block = set_pinned demo_block (_pinned pinned_free_block) /\
   deferred (_pinned pinned_free_block) = []) /\
  forall qs, qs ≡ₚ map (fun k => 4096 + Z.of_nat k * 64) (seq 0 100) ->
  exists s1, mallocs 100 demo_block
             = OK (map (fun k => 4096 + Z.of_nat k * 64) (seq 0 100), s1) /\
             frees qs s1 = OK demo_block.
Proof.
  split; [apply demo_constructed | ].
  destruct (C3_full_drain_reset demo_block demo_constructed)
    as (Hdrained & ps & s1 & Hms & _ & Hfrees & _).
  split.
  { destruct (Hdrained pinned_free_block [] pinned_free_block_steps eq_refl)
      as (_ & _ & _ & _ & _ & _ & Hsame & Hnodef & _).
    split; assumption. }
  intros qs Hperm. exists s1.
  assert (Hps : ps = map (fun k => 4096 + Z.of_nat k * 64) (seq 0 100)).
  { change (Z.to_nat (_totalObjects demo_block)) with 100%nat in Hms.
    assert (Hrun : exists s, mallocs 100 demo_block
                     = OK (map (fun k => 4096 + Z.of_nat k * 64) (seq 0 100), s))
      by (vm_compute; eauto).
    destruct Hrun as (s & Hrun). congruence. }
  subst ps. split; [assumption | now apply Hfrees].
Defined.

(** An available address is returned after finitely many allocations. *)
Lemma avail_returnable (s : Header) (live : list Z) (a : Z) :
  Inv s live -> a ∈ avail s ->
  exists n ps s', mallocs n s = OK (ps, s') /\ last ps = Some a.
Proof.
  intros HI Ha. apply list_elem_of_lookup in Ha as (j & Hj).
  pose proof (lookup_lt_Some _ _ _ Hj) as Hlt.
  destruct (mallocs_avail (S j) s live HI ltac:(lia)) as (s' & Hms & _).
  exists (S j), (take (S j) (avail s)), s'. split; [assumption | ].
  rewrite (take_S_r _ _ _ Hj). apply last_snoc.
Qed.

Lemma normalized_used_slot (s : Header) (live : list Z) (a : Z) :
  Inv s live -> a ∈ owned s live -> normalized s a = a.
Proof.
  intros HI Ha. destruct (inv_owned_facts _ _ HI a Ha) as (_ & _ & _ & Hn & _).
  rewrite (normalize_eq s (inv_wf _ _ HI)) in Hn. now injection Hn.
Qed.

Lemma succ_even_odd (a : Z) : a mod 2 = 0 -> (a + 1) mod 2 = 1.
Proof. intros H. Z.div_mod_to_equations. lia. Qed.

Lemma even_succ_range (a : Z) :
  0 <= a < 2 ^ 64 -> a mod 2 = 0 -> 0 <= a + 1 < 2 ^ 64.
Proof.
  change (2 ^ 64) with 18446744073709551616.
  intros Ha H. Z.div_mod_to_equations. lia.
Qed.

(** A slot whose deferred free is recorded in the Pin Table is not handed
    out. *)
Lemma deferred_not_allocated (s : Header) (live : list Z) (a p : Z) (s' : Header) :
  Inv s live -> a ∈ deferred (_pinned s) -> malloc s = OK (p, s') -> p <> a.
Proof.
  intros HI Hd Hm ->.
  assert (Hms : mallocs 1 s = OK ([a], s')) by (simpl; rewrite Hm; reflexivity).
  destruct (mallocs_results 1 s live [a] s' HI Hms a ltac:(left)) as [H0 | Hav].
  - destruct (inv_owned_facts _ _ HI a (deferred_owned _ _ _ Hd)) as (Hr & _). lia.
  - now apply (avail_not_owned _ _ _ HI Hav).
Qed.

(** C1. Let [A] be a live allocation of a reachable state and let [pin A]
    succeed.  Then [free A] succeeds and only clears the in-use flag of the
    first matching cell [i] of the Pin Table: [_objectsFree] and the Free
    List are unchanged, [A] is not in the Free List, and no run of [malloc]
    calls returns [A]; in any reachable state, [malloc] does not return a
    slot whose deferred free is still recorded in the Pin Table.  The
    following [unpin A] succeeds: it inserts [A]
    into the Free List, increments [_objectsFree] by one (running [clear]
    when the superblock is then fully free), zeroes cell [i], and some run
    of [malloc] calls then returns [A]. *)
Theorem C1_deferred_free (s : Header) (live : list Z) (A : Z) (s1 : Header) :
  reachable s live -> A ∈ live -> pin s A = OK s1 ->
  exists i s2 s3,
    scan (fun e => entry_addr e =? A) (_pinned s1) = Some i /\
    pinned_at s1 i = Z.lor A IN_USE /\
    free s1 A = OK s2 /\
    s2 = set_pinned s1 (<[i := A]> (_pinned s1)) /\
    _objectsFree s2 = _objectsFree s /\ _freeList s2 = _freeList s /\
    (A ∉ _freeList s2) /\
    A ∈ deferred (_pinned s2) /\
    (forall st lv p st', reachable st lv -> A ∈ deferred (_pinned st) ->
                         malloc st = OK (p, st') -> p <> A) /\
    (forall n ps s', mallocs n s2 = OK (ps, s') -> A ∉ ps) /\
    unpin s2 A = OK s3 /\
    s3 = set_pinned
           (let sp := pushed s2 A in
            if _objectsFree sp =? _totalObjects sp then cleared sp else sp)
           (<[i := 0]> (_pinned s2)) /\
    _objectsFree s3 = _objectsFree s2 + 1 /\
    pinned_at s3 i = 0 /\
    (exists n ps s', mallocs n s3 = OK (ps, s') /\ last ps = Some A).
Proof.
  intros Hreach HA Hpin. pose proof (reachable_with_Inv _ _ _ Hreach) as HI.
  pose proof (inv_wf _ _ HI) as Hwf.
  pose proof HA as HA'. apply elem_of_Permutation in HA' as (live' & Hl).
  destruct (inv_owned_facts _ _ HI A (live_owned _ _ _ HA)) as (HAr & HAal & HAin & _).
  pose proof (mod16_even _ HAal) as HAev.
  pose proof (normalized_used_slot _ _ _ HI (live_owned _ _ _ HA)) as HnA.
  assert (HlorA : Z.lor A IN_USE = A + 1) by (unfold IN_USE; rewrite lor_1; lia).
  (* the pin *)
  destruct (scan (fun e => e =? 0) (_pinned s)) as [j|] eqn:Hscan0;
    [ | rewrite (pin_full _ _ HI A Hscan0) in Hpin; discriminate].
  rewrite (pin_free_cell _ _ HI A j Hscan0), HnA in Hpin. injection Hpin as <-.
  pose proof (Inv_pin _ _ HI A j Hscan0) as HI1. rewrite HnA in HI1.
  set (s1 := set_pinned s (<[j := Z.lor A IN_USE]> (_pinned s))) in *.
  destruct (scan_Some _ _ _ Hscan0) as (Hj & _ & _).
  pose proof (inv_tbl_len _ _ HI) as Hlen.
  assert (Hcellj : pinned_at s1 j = A + 1).
  { unfold pinned_at, s1. simpl. rewrite nth_insert_eq by lia. assumption. }
  (* the release *)
  destruct (scan (fun e => entry_addr e =? A) (_pinned s1)) as [i|] eqn:Hscan1.
  2:{ pose proof (scan_None _ _ Hscan1 j Hj) as Hno. fold (pinned_at s1 j) in Hno.
      rewrite Hcellj, entry_addr_eq in Hno by (apply even_succ_range; [lia | assumption]).
      pose proof (succ_even_odd A HAev). lia. }
  destruct (scan_Some _ _ _ Hscan1) as (Hi & Hhit & Hbefore).
  destruct (matched_cell _ _ _ _ HI1 Hl i Hi Hhit) as (Hcelli & _).
  pose proof (free_pinned _ _ _ _ HI1 Hl i Hscan1) as Hfree.
  pose proof (Inv_free_pinned _ _ _ _ HI1 Hl i Hscan1) as HI2.
  set (s2 := set_pinned s1 (<[i := A]> (_pinned s1))) in *.
  pose proof (inv_tbl_len _ _ HI1) as Hlen1.
  assert (Hcell2 : pinned_at s2 i = A).
  { unfold pinned_at, s2. simpl.
    rewrite nth_insert_eq; [reflexivity | rewrite length_insert; lia]. }
  assert (Hdef : A ∈ deferred (_pinned s2)).
  { apply deferred_elem. exists i. rewrite (inv_tbl_len _ _ HI2).
    repeat split; [assumption | exact Hcell2 | apply is_deferred_even; lia]. }
  assert (Hnofl : A ∉ _freeList s).
  { pose proof (inv_nodup _ _ HI) as Hnd. unfold owned in Hnd.
    apply NoDup_app in Hnd as (_ & Hdis & _). intros Hin.
    apply (Hdis A HA). apply elem_of_app. now left. }
  (* the unpin *)
  assert (HnA2 : normalized s2 A = A) by exact HnA.
  assert (Hscan2 : scan (fun e => entry_addr e =? normalized s2 A) (_pinned s2) = Some i).
  { rewrite HnA2. apply scan_first; [assumption | | ].
    - fold (pinned_at s2 i). rewrite Hcell2, entry_addr_eq by lia. lia.
    - intros k Hk. unfold s2. simpl. rewrite nth_insert_ne by lia. now apply Hbefore. }
  assert (Hflag2 : entry_flag (pinned_at s2 i) = 0)
    by (rewrite Hcell2, entry_flag_eq; assumption).
  assert (Hnz2 : normalized s2 A <> 0) by (rewrite HnA2; lia).
  pose proof (unpin_deferred _ _ HI2 A Hnz2 i Hscan2 Hflag2) as Hunpin.
  pose proof (Inv_unpin_deferred _ _ HI2 A Hnz2 i Hscan2 Hflag2) as HI3.
  rewrite HnA2, reclaimed_pinned in Hunpin, HI3.
  set (s3 := set_pinned (reclaimed s2 A) (<[i := 0]> (_pinned s2))) in *.
  exists i, s2, s3.
  split; [reflexivity | ]. split; [congruence | ]. split; [assumption | ].
  split; [reflexivity | ]. split; [reflexivity | ]. split; [reflexivity | ].
  split; [exact Hnofl | ].
  split; [exact Hdef | ].
  split.
  { intros st lv p st' Hst Hd Hm.
    exact (deferred_not_allocated _ _ _ _ _ (reachable_with_Inv _ _ _ Hst) Hd Hm). }
  split.
  { intros n ps s' Hms Hin.
    destruct (mallocs_results _ _ _ _ _ HI2 Hms A Hin) as [H0 | Hav]; [lia | ].
    now apply (avail_not_owned _ _ _ HI2 Hav). }
  split; [assumption | ].
  split.
  { unfold s3, reclaimed. simpl. reflexivity. }
  split.
  { unfold s3, reclaimed. simpl.
    destruct (_objectsFree s + 1 =? _totalObjects s) eqn:Hfull; simpl; lia. }
  split.
  { change (nth i (<[i := 0]> (_pinned s2)) 0 = 0).
    apply nth_insert_eq. rewrite (inv_tbl_len _ _ HI2). assumption. }
  apply (avail_returnable s3 live' A HI3).
  unfold avail, s3, reclaimed. simpl.
  destruct (_objectsFree s + 1 =? _totalObjects s) eqn:Hfull.
  - apply elem_of_app. left. unfold reap_slots. simpl.
    destruct HAin as [Hlo Hhi].
    destruct (inv_slots _ _ HI A (live_owned _ _ _ HA)) as (k & Hk & HAk).
    pose proof (inv_reap _ _ HI) as Hr.
    apply list_elem_of_fmap. exists (Z.to_nat k). split.
    + rewrite HAk, Z2Nat.id by lia. reflexivity.
    + apply elem_of_seq. lia.
  - apply elem_of_app. right. simpl. left.
Qed.

Lemma C1_witness :
  reachable (reaped demo_block) [4096] /\
  4096 ∈ [4096] /\
  pin (reaped demo_block) 4096
  = OK (set_pinned (reaped demo_block) (<[0%nat := 4097]> zeroed)) /\
  exists s2 s3,
    free (set_pinned (reaped demo_block) (<[0%nat := 4097]> zeroed)) 4096 = OK s2 /\
    _objectsFree s2 = 99 /\
    unpin s2 4096 = OK s3 /\ _objectsFree s3 = 100.
Proof.
  split; [apply demo_reachable_1 | ]. split; [constructor | ]. split; [reflexivity | ].
  destruct (C1_deferred_free (reaped demo_block) [4096] 4096
              (set_pinned (reaped demo_block) (<[0%nat := 4097]> zeroed))
              demo_reachable_1 ltac:(constructor) eq_refl)
    as (i & s2 & s3 & _ & _ & Hfree & _ & Hf2 & _ & _ & _ & _ & _ & Hunpin & _ & Hf3 & _).
  exists s2, s3. split; [assumption | ]. split; [exact Hf2 | ].
  split; [assumption | ]. rewrite Hf3, Hf2. reflexivity.
Defined.

(** ** Release and interior pointers *)

(** C5, as stated, fails: [free] compares the cells with [ptr] itself.  With
    slot 4096 pinned, the interior pointer 4112 of that slot is not matched:
    [free] puts 4112 on the Free List and increments [_objectsFree], where
    a search for [normalize(4112) = 4096] defers the release, as [free]
    does for the slot base 4096. *)
Lemma C5_counterexample :
  reachable pinned_block [4160; 4096] /\
  normalize pinned_block 4112 = OK 4096 /\
  free pinned_block 4096 = OK (set_pinned pinned_block (<[0%nat := 4096]> (_pinned pinned_block))) /\
  free_spec pinned_block 4112 = free pinned_block 4096 /\
  free pinned_block 4112 = OK (pushed pinned_block 4112) /\
  _freeList (pushed pinned_block 4112) = [4112] /\
  free pinned_block 4112 <> free_spec pinned_block 4112.
Proof.
  split; [apply pinned_block_reachable | ].
  repeat split; try reflexivity.
  vm_compute. discriminate.
Qed.

(** C5, amended.  [free] does not normalize its argument: it compares the
    cells of the Pin Table with [ptr].  For a slot base, [normalize ptr =
    ptr], this is the comparison with [normalize(ptr)]; every live
    allocation of a reachable state is such a slot base. *)
Theorem C5_release_matches_slot_bases (s : Header) (live : list Z) (ptr : Z) :
  reachable s live ->
  (normalize s ptr = OK ptr -> free s ptr = free_spec s ptr) /\
  (ptr ∈ live -> normalize s ptr = OK ptr).
Proof.
  intros Hreach. pose proof (reachable_with_Inv _ _ _ Hreach) as HI. split.
  - intros Hn. unfold free, free_spec. rewrite Hn. reflexivity.
  - intros Hp. apply (inv_owned_facts _ _ HI ptr). now apply live_owned.
Qed.

Lemma C5_witness :
  reachable pinned_block [4160; 4096] /\
  normalize pinned_block 4096 = OK 4096 /\
  free pinned_block 4096 = free_spec pinned_block 4096.
Proof.
  split; [apply pinned_block_reachable | ]. split; [reflexivity | ].
  apply (C5_release_matches_slot_bases pinned_block [4160; 4096] 4096
           pinned_block_reachable).
  reflexivity.
Defined.

(** C7. [pin] writes [normalize(ptr)] with the in-use flag set into the
    first empty cell of the Pin Table; for a pointer into the slot region
    the cell then names the slot base with its flag set.  When none of the
    [MAX_PINNED] cells is empty, [pin] ends in the fatal [assert(0)].  On a
    superblock of 101 slots, pinning the first 100 allocations succeeds and
    pinning the 101st is fatal. *)
Theorem C7_pin_capacity (s : Header) (live : list Z) (ptr : Z) :
  reachable s live ->
  (forall i, (i < MAX_PINNED)%nat -> pinned_at s i = 0 ->
     (forall j, (j < i)%nat -> pinned_at s j <> 0) ->
     exists obj, normalize s ptr = OK obj /\
       pin s ptr = OK (set_pinned s (<[i := Z.lor obj IN_USE]> (_pinned s))) /\
       entry_flag (Z.lor obj IN_USE) = 1 /\
       (in_superblock s ptr -> entry_addr (Z.lor obj IN_USE) = obj)) /\
  ((forall i, (i < MAX_PINNED)%nat -> pinned_at s i <> 0) -> pin s ptr = Fatal) /\
  (exists s0 ps s1 s2,
     construct no_hw 1024 64 6464 4096 zeroed = OK (s0, []) /\
     mallocs 101 s0 = OK (ps, s1) /\ NoDup ps /\
     pins (take 100 ps) s1 = OK s2 /\
     (forall i, (i < MAX_PINNED)%nat -> pinned_at s2 i <> 0) /\
     pin s2 (nth 100 ps 0) = Fatal /\
     pins ps s1 = Fatal).
Proof.
  intros Hreach. pose proof (reachable_with_Inv _ _ _ Hreach) as HI.
  pose proof (inv_wf _ _ HI) as Hwf.
  split; [ | split].
  - intros i Hi Hzero Hbefore. exists (normalized s ptr).
    split; [apply (normalize_eq s Hwf) | ].
    assert (Hscan : scan (fun e => e =? 0) (_pinned s) = Some i).
    { apply scan_first; [assumption | | ].
      - unfold pinned_at in Hzero. rewrite Hzero. reflexivity.
      - intros k Hk. specialize (Hbefore k Hk). unfold pinned_at in Hbefore. lia. }
    split; [apply (pin_free_cell _ _ HI ptr i Hscan) | ].
    destruct (lor_in_use _ (normalized_range s ptr)) as [Hrange Hodd].
    split; [rewrite entry_flag_eq; assumption | ].
    intros Hin. rewrite entry_addr_eq by assumption. rewrite Hodd.
    destruct (normalized_in_superblock s ptr Hwf Hin) as (k & Hk & Hn & _).
    pose proof (mod16_even _ (slot_aligned s Hwf k Hk)) as Hev.
    pose proof (slot_range s Hwf k ltac:(lia)) as Hr.
    rewrite Hn. unfold IN_USE. rewrite lor_1 by lia. lia.
  - intros Hfull. apply (pin_full _ _ HI ptr). apply scan_no_hit.
    intros k Hk. specialize (Hfull k Hk). unfold pinned_at in Hfull. lia.
  - destruct (mallocs 101 (mkHeader 1024 (Z.lxor MAGIC_NUMBER 1024) 64 true
                             101 101 101 4096 4096 zeroed 0 []))
      as [[ps s1]|] eqn:Hms; [ | vm_compute in Hms; discriminate].
    destruct (pins (take 100 ps) s1) as [s2|] eqn:Hpins;
      [ | vm_compute in Hms; injection Hms as <- <-; vm_compute in Hpins; discriminate].
    exists (mkHeader 1024 (Z.lxor MAGIC_NUMBER 1024) 64 true
                     101 101 101 4096 4096 zeroed 0 []), ps, s1, s2.
    vm_compute in Hms. injection Hms as <- <-.
    vm_compute in Hpins. injection Hpins as <-.
    split; [reflexivity | ]. split; [reflexivity | ].
    split; [apply (bool_decide_unpack _); vm_compute; reflexivity | ].
    split; [reflexivity | ].
    split.
    + intros i Hi. unfold MAX_PINNED in Hi.
      do 100 (destruct i as [|i]; [vm_compute; discriminate | ]). lia.
    + split; vm_compute; reflexivity.
Qed.

Lemma C7_witness :
  reachable pinned_block [4160; 4096] /\
  pin pinned_block 4200
  = OK (set_pinned pinned_block (<[1%nat := 4161]> (_pinned pinned_block))).
Proof.
  split; [apply pinned_block_reachable | ].
  destruct (C7_pin_capacity pinned_block [4160; 4096] 4200 pinned_block_reachable)
    as (Hfirst & _).
  destruct (Hfirst 1%nat ltac:(unfold MAX_PINNED; lia) eq_refl) as (obj & Hn & Hp & _).
  - intros j Hj. assert (j = 0%nat) as -> by lia. discriminate.
  - assert (obj = 4160) as -> by (vm_compute in Hn; congruence).
    exact Hp.
Defined.

Lemma construct_events (hw : Hardware) (this_ sz bufferSize start : Z)
    (mem : list Z) (s : Header) (evs : list Event) :
  construct hw this_ sz bufferSize start mem = OK (s, evs) ->
  evs = if rdma_get_pd hw =? 0 then []
        else [Ev_ibv_reg_mr (rdma_get_pd hw) start bufferSize
                (Z.lor IBV_ACCESS_LOCAL_WRITE IBV_ACCESS_REMOTE_WRITE)].
Proof.
  unfold construct. destruct (sz =? 0) eqn:Hsz; [discriminate|]. simpl.
  destruct (HL.align Alignment start =? start) eqn:Hal; [|discriminate]. simpl.
  destruct (Alignment <=? sz) eqn:Hge; [|discriminate]. simpl.
  destruct ((u32 (bufferSize / sz) =? 1) || (sz mod Alignment =? 0)) eqn:Hor;
    [|discriminate]. simpl.
  destruct (rdma_get_pd hw =? 0); simpl; intros [= <- <-]; reflexivity.
Qed.



(** ** Occupied cells of the Pin Table *)

Lemma pinned_addrs_length (tbl : list Z) :
  (length (pinned_addrs tbl) <= length tbl)%nat.
Proof.
  induction tbl as [|e tbl IH]; simpl; [lia | ].
  destruct (e =? 0); simpl; lia.
Qed.

Lemma pinned_addrs_insert_same (tbl : list Z) (i : nat) (v : Z) :
  (i < length tbl)%nat -> nth i tbl 0 <> 0 -> v <> 0 ->
  entry_addr v = entry_addr (nth i tbl 0) ->
  pinned_addrs (<[i := v]> tbl) = pinned_addrs tbl.
Proof.
  revert i. induction tbl as [|e tbl IH]; intros [|i] Hi Hold Hv Heq; simpl in *; try lia.
  - assert ((v =? 0) = false) as -> by lia.
    assert ((e =? 0) = false) as -> by lia. now rewrite Heq.
  - rewrite IH by (assumption || lia). reflexivity.
Qed.

Lemma pinned_addrs_insert_new (tbl : list Z) (i : nat) (v : Z) :
  (i < length tbl)%nat -> nth i tbl 0 = 0 -> v <> 0 ->
  pinned_addrs (<[i := v]> tbl) ≡ₚ entry_addr v :: pinned_addrs tbl.
Proof.
  revert i. induction tbl as [|e tbl IH]; intros [|i] Hi Hold Hv; simpl in *; try lia.
  - assert ((v =? 0) = false) as -> by lia. subst e. reflexivity.
  - destruct (e =? 0).
    + apply IH; (assumption || lia).
    + rewrite IH by (assumption || lia). apply Permutation_swap.
Qed.

Lemma pinned_addrs_insert_zero (tbl : list Z) (i : nat) :
  pinned_addrs (<[i := 0]> tbl) `sublist_of` pinned_addrs tbl.
Proof.
  revert i. induction tbl as [|e tbl IH]; intros [|i]; simpl; try reflexivity.
  - destruct (e =? 0); [reflexivity | now apply sublist_cons].
  - destruct (e =? 0); [apply IH | apply sublist_skip, IH].
Qed.

Lemma pinned_cell_names_slot (s : Header) (p : Z) :
  Wf s -> in_superblock s p ->
  Z.lor (normalized s p) IN_USE <> 0 /\
  entry_addr (Z.lor (normalized s p) IN_USE) = normalized s p /\
  exists k, 0 <= k < _totalObjects s /\ normalized s p = slot s k.
Proof.
  intros Hwf Hin.
  destruct (lor_in_use _ (normalized_range s p)) as [Hrange Hodd].
  destruct (normalized_in_superblock s p Hwf Hin) as (k & Hk & Hn & _).
  pose proof (mod16_even _ (slot_aligned s Hwf k Hk)) as Hev.
  pose proof (slot_range s Hwf k ltac:(lia)) as Hr.
  split; [intros H0; rewrite H0 in Hodd; discriminate | ].
  split; [ | now exists k].
  rewrite entry_addr_eq, Hodd by assumption.
  rewrite Hn. unfold IN_USE. rewrite lor_1 by lia. lia.
Qed.

Lemma free_pinned_addrs (s : Header) (live live' : list Z) (p : Z) (s' : Header) :
  Inv s live -> live ≡ₚ p :: live' -> free s p = OK s' ->
  pinned_addrs (_pinned s') = pinned_addrs (_pinned s).
Proof.
  intros HI Hl Hf.
  destruct (released_facts _ _ _ _ HI Hl) as (Hp & Hal & _).
  destruct (scan (fun e => entry_addr e =? p) (_pinned s)) as [i|] eqn:Hscan.
  - rewrite (free_pinned _ _ _ _ HI Hl i Hscan) in Hf. injection Hf as <-. simpl.
    destruct (scan_Some _ _ _ Hscan) as (Hi & Hhit & _).
    destruct (matched_cell _ _ _ _ HI Hl i Hi Hhit) as (Hcell & Haddr).
    unfold pinned_at in *.
    apply pinned_addrs_insert_same; [rewrite (inv_tbl_len _ _ HI); lia | lia | lia | ].
    rewrite Haddr, entry_addr_eq by lia. rewrite (mod16_even _ Hal). lia.
  - rewrite (free_unpinned _ _ _ _ HI Hl Hscan) in Hf. injection Hf as <-.
    now rewrite reclaimed_pinned.
Qed.

Lemma pin_pinned_addrs (s : Header) (live : list Z) (p : Z) (s' : Header) :
  Inv s live -> in_superblock s p -> pin s p = OK s' ->
  pinned_addrs (_pinned s') ≡ₚ normalized s p :: pinned_addrs (_pinned s).
Proof.
  intros HI Hin Hp.
  destruct (pinned_cell_names_slot s p (inv_wf _ _ HI) Hin) as (Hnz & Haddr & _).
  destruct (scan (fun e => e =? 0) (_pinned s)) as [i|] eqn:Hscan.
  - rewrite (pin_free_cell _ _ HI p i Hscan) in Hp. injection Hp as <-. simpl.
    destruct (scan_Some _ _ _ Hscan) as (Hi & Hhit & _).
    rewrite pinned_addrs_insert_new;
      [now rewrite Haddr | rewrite (inv_tbl_len _ _ HI); lia | lia | assumption].
  - rewrite (pin_full _ _ HI p Hscan) in Hp. discriminate.
Qed.

Lemma unpin_pinned_addrs (s : Header) (live : list Z) (p : Z) (s' : Header) :
  Inv s live -> in_superblock s p -> unpin s p = OK s' ->
  pinned_addrs (_pinned s') `sublist_of` pinned_addrs (_pinned s).
Proof.
  intros HI Hin Hu.
  pose proof (normalized_nonzero s p (inv_wf _ _ HI) Hin) as Hnz.
  destruct (scan (fun e => entry_addr e =? normalized s p) (_pinned s)) as [i|] eqn:Hscan.
  - destruct (Z.eq_dec (entry_flag (pinned_at s i)) 0) as [Hflag | Hflag].
    + rewrite (unpin_deferred _ _ HI p Hnz i Hscan Hflag) in Hu. injection Hu as <-.
      simpl. rewrite reclaimed_pinned. apply pinned_addrs_insert_zero.
    + rewrite (unpin_in_use _ _ HI p i Hscan Hflag) in Hu. injection Hu as <-.
      simpl. apply pinned_addrs_insert_zero.
  - rewrite (unpin_no_cell _ _ HI p Hscan) in Hu. discriminate.
Qed.

Lemma distinct_slot_bases_ext (s s' : Header) :
  same_consts s s' -> pinned_addrs (_pinned s') = pinned_addrs (_pinned s) ->
  distinct_slot_bases s -> distinct_slot_bases s'.
Proof.
  intros (_ & _ & Hsz & _ & Htot & Hst & _) Hp [Hnd Hsl].
  unfold distinct_slot_bases. rewrite Hp, Hsz, Htot, Hst. auto.
Qed.

Lemma steps_distinct (pin_ok : Header -> Z -> Prop) (s0 s : Header) (live0 live : list Z) :
  (forall s p, pin_ok s p -> pin_fresh s p) ->
  Inv s0 live0 -> distinct_slot_bases s0 ->
  steps pin_ok s0 live0 s live -> distinct_slot_bases s.
Proof.
  intros Hok H0 HD0 Hs.
  induction Hs as [ | s live s' Hs IH Hm | s live p s' Hs IH Hm Hp
                 | s live live' p s' Hs IH Hl Hf
                 | s live p s' Hs IH Hin Hfresh Hp | s live p s' Hs IH Hin Hu];
    [assumption | | | | | ]; pose proof (steps_Inv _ _ _ _ _ H0 Hs) as HI.
  - destruct (malloc_consts _ _ _ _ HI Hm) as [Hc Hpin].
    apply (distinct_slot_bases_ext s); [assumption | now rewrite Hpin | assumption].
  - destruct (malloc_consts _ _ _ _ HI Hm) as [Hc Hpin].
    apply (distinct_slot_bases_ext s); [assumption | now rewrite Hpin | assumption].
  - apply (distinct_slot_bases_ext s);
      [apply (free_consts _ _ _ _ _ HI Hl Hf) | apply (free_pinned_addrs _ _ _ _ _ HI Hl Hf)
       | assumption].
  - pose proof (pin_pinned_addrs _ _ _ _ HI Hin Hp) as Hperm.
    pose proof (pin_consts _ _ _ _ HI Hp) as (_ & _ & Hsz & _ & Htot & Hst & _).
    destruct (pinned_cell_names_slot s p (inv_wf _ _ HI) Hin) as (_ & _ & k & Hk & Hn).
    destruct IH as [Hnd Hsl]. unfold distinct_slot_bases.
    rewrite Hsz, Htot, Hst. split.
    + rewrite Hperm. apply NoDup_cons. split; [ | assumption].
      apply (Hok _ _ Hfresh). apply (normalize_eq s (inv_wf _ _ HI)).
    + intros a Ha. rewrite Hperm in Ha.
      apply elem_of_cons in Ha as [-> | Ha]; [now exists k | now apply Hsl].
  - pose proof (unpin_pinned_addrs _ _ _ _ HI Hin Hu) as Hsub.
    pose proof (unpin_consts _ _ _ _ HI Hin Hu) as (_ & _ & Hsz & _ & Htot & Hst & _).
    destruct IH as [Hnd Hsl]. unfold distinct_slot_bases.
    rewrite Hsz, Htot, Hst. split.
    + eapply sublist_NoDup; eassumption.
    + intros a Ha. apply Hsl. eapply elem_of_sublist; eassumption.
Qed.

(** C6, as stated, fails: [pin] takes the first empty cell without looking
    for a cell that already names the slot, so pinning an allocation twice
    leaves two occupied cells with the same slot base. *)
Lemma C6_counterexample :
  reachable twice_pinned_block [4096] /\
  pinned_addrs (_pinned twice_pinned_block) = [4096; 4096] /\
  ~ pin_table_distinct twice_pinned_block.
Proof.
  split; [ | split; [reflexivity | ]].
  - exists demo_block. split; [apply demo_constructed | ].
    apply (S_pin _ _ _ (set_pinned (reaped demo_block) (<[0%nat := 4097]> zeroed)) _ 4096);
      [ | unfold in_superblock; simpl; lia | exact I | reflexivity].
    apply (S_pin _ _ _ (reaped demo_block) _ 4096);
      [ | unfold in_superblock; simpl; lia | exact I | reflexivity].
    apply (S_malloc _ _ _ demo_block [] 4096); [constructor | reflexivity | discriminate].
  - intros [_ Hnd].
    change (pinned_addrs (_pinned twice_pinned_block)) with [4096; 4096] in Hnd.
    apply NoDup_cons in Hnd as [Hnot _]. apply Hnot. left.
Qed.

(** C6, amended.  In every reachable state the Pin Table has [MAX_PINNED]
    cells, hence at most [MAX_PINNED] occupied ones.  [pin] does not look
    for duplicates: when the caller pins no slot that already has an
    occupied cell, the occupied cells name pairwise distinct slot bases. *)
Theorem C6_pin_table_capacity_and_distinctness
    (pin_ok : Header -> Z -> Prop) (s : Header) (live : list Z) :
  reachable_with pin_ok s live ->
  length (_pinned s) = MAX_PINNED /\
  (length (pinned_addrs (_pinned s)) <= MAX_PINNED)%nat /\
  ((forall s p, pin_ok s p -> pin_fresh s p) ->
   NoDup (pinned_addrs (_pinned s)) /\
   forall a, a ∈ pinned_addrs (_pinned s) ->
             exists k, 0 <= k < _totalObjects s /\ a = _start s + k * _objectSize s).
Proof.
  intros Hreach. pose proof (reachable_with_Inv _ _ _ Hreach) as HI.
  pose proof (inv_tbl_len _ _ HI) as Hlen.
  split; [assumption | ].
  split; [rewrite <- Hlen; apply pinned_addrs_length | ].
  intros Hok. destruct Hreach as (s0 & Hc & Hsteps).
  apply (steps_distinct pin_ok s0 s [] live Hok (constructed_Inv _ Hc)); [ | assumption].
  destruct Hc as (hw & this_ & sz & bs & start & evs & _ & _ & _ & _ & Hc).
  destruct (construct_fields _ _ _ _ _ _ _ _ Hc)
    as (_ & _ & _ & _ & _ & _ & _ & _ & _ & Hpin & _).
  unfold distinct_slot_bases. rewrite Hpin.
  change (pinned_addrs zeroed) with (@nil Z).
  split; [constructor | intros a Ha; inversion Ha].
Qed.

Lemma C6_witness :
  reachable_with pin_fresh two_pins_block [4160; 4096] /\
  pinned_addrs (_pinned two_pins_block) = [4096; 4160] /\
  NoDup (pinned_addrs (_pinned two_pins_block)) /\
  forall a, a ∈ pinned_addrs (_pinned two_pins_block) ->
            exists k, 0 <= k < _totalObjects two_pins_block /\
                      a = _start two_pins_block + k * _objectSize two_pins_block.
Proof.
  split; [apply two_pins_block_reachable | ]. split; [reflexivity | ].
  apply (C6_pin_table_capacity_and_distinctness pin_fresh two_pins_block [4160; 4096]
           two_pins_block_reachable).
  intros s p H. exact H.
Defined.

(** * Further properties of the code *)

(** ** More about the constructor *)

(** X1.  The constructor succeeds exactly when its three assertions hold. *)
Theorem construct_succeeds_iff (hw : Hardware) (this_ sz bufferSize start : Z)
    (mem : list Z) :
  0 <= sz < 2 ^ 64 -> 0 <= start < 2 ^ 64 ->
  ((exists s evs, construct hw this_ sz bufferSize start mem = OK (s, evs)) <->
   16 <= sz /\ start mod 16 = 0 /\ (u32 (bufferSize / sz) = 1 \/ sz mod 16 = 0)) /\
  (construct hw this_ sz bufferSize start mem = Fatal <->
   sz < 16 \/ start mod 16 <> 0 \/ (u32 (bufferSize / sz) <> 1 /\ sz mod 16 <> 0)).
Proof.
  intros Hsz Hstart.
  pose proof (align_fixpoint start Hstart) as Hal.
  assert (Hcases : (16 <= sz /\ start mod 16 = 0 /\
                    (u32 (bufferSize / sz) = 1 \/ sz mod 16 = 0) /\
                    exists s evs, construct hw this_ sz bufferSize start mem = OK (s, evs)) \/
                   ((sz < 16 \/ start mod 16 <> 0 \/
                     (u32 (bufferSize / sz) <> 1 /\ sz mod 16 <> 0)) /\
                    construct hw this_ sz bufferSize start mem = Fatal)).
  { unfold construct. destruct (sz =? 0) eqn:H0; [right; split; [lia | reflexivity] | ].
    simpl. destruct (HL.align Alignment start =? start) eqn:Ha; simpl.
    2:{ right. split; [ | reflexivity]. right. left. intros Hm.
        apply Hal in Hm. lia. }
    apply Z.eqb_eq, Hal in Ha.
    unfold Alignment. destruct (16 <=? sz) eqn:Hge; simpl;
      [ | right; split; [lia | reflexivity]].
    destruct ((u32 (bufferSize / sz) =? 1) || (sz mod 16 =? 0)) eqn:Hor; simpl.
    - left. apply orb_true_iff in Hor.
      split; [lia | ]. split; [assumption | ]. split; [lia | ].
      destruct (rdma_get_pd hw =? 0); simpl; eauto.
    - right. apply orb_false_iff in Hor. split; [ | reflexivity]. right. right. lia. }
  split; split.
  - intros (s & evs & Hc). destruct Hcases as [(H1 & H2 & H3 & _) | [_ Hf]];
      [auto | congruence].
  - intros (H1 & H2 & H3). destruct Hcases as [(_ & _ & _ & Hok) | [Hbad _]];
      [assumption | lia].
  - intros Hf. destruct Hcases as [(_ & _ & _ & s & evs & Hok) | [Hbad _]];
      [congruence | assumption].
  - intros Hbad. destruct Hcases as [(H1 & H2 & H3 & _) | [_ Hf]]; [lia | assumption].
Qed.

Lemma construct_succeeds_iff_witness :
  (0 <= 24 < 2 ^ 64 /\ 0 <= 4096 < 2 ^ 64) /\
  construct no_hw 1024 24 48 4096 zeroed = Fatal.
Proof.
  split; [lia | ].
  apply (construct_succeeds_iff no_hw 1024 24 48 4096 zeroed); [lia | lia | ].
  right. right. split; discriminate.
Defined.

(** X2.  The flag computed by the constructor tells whether [objectSize] is a
    power of two. *)
Theorem power_of_two_flag (hw : Hardware) (this_ sz bufferSize start : Z)
    (mem : list Z) (s : Header) (evs : list Event) :
  0 <= sz < 2 ^ 64 ->
  construct hw this_ sz bufferSize start mem = OK (s, evs) ->
  (_objectSizeIsPowerOfTwo s = true <-> exists n, 0 <= n /\ sz = 2 ^ n).
Proof.
  intros Hsz Hc.
  destruct (construct_fields _ _ _ _ _ _ _ _ Hc)
    as (_ & _ & _ & Hpow & _ & _ & _ & _ & _ & _ & _ & _ & Hnz & _ & Hge & _).
  rewrite Hpow, (u64_small (sz - 1)) by lia.
  assert ((sz =? 0) = false) as -> by lia. simpl. rewrite andb_true_r.
  split.
  - intros Hland. apply Z.eqb_eq in Hland.
    pose proof (Z.log2_spec sz ltac:(lia)) as [Hlo Hhi].
    pose proof (Z.log2_nonneg sz) as Hn.
    exists (Z.log2 sz). split; [assumption | ].
    destruct (Z.eq_dec sz (2 ^ Z.log2 sz)) as [|Hne]; [assumption | exfalso].
    (* [sz] and [sz - 1] share their top bit unless [sz] is that bit alone *)
    assert (Hlog : Z.log2 (sz - 1) = Z.log2 sz).
    { apply Z.log2_unique; [assumption | ].
      rewrite Z.pow_succ_r in Hhi by assumption.
      replace (Z.log2 sz + 1) with (Z.succ (Z.log2 sz)) by lia.
      rewrite Z.pow_succ_r by assumption. lia. }
    assert (Hb1 : Z.testbit sz (Z.log2 sz) = true) by (apply Z.bit_log2; lia).
    assert (Hb2 : Z.testbit (sz - 1) (Z.log2 sz) = true).
    { rewrite <- Hlog. apply Z.bit_log2.
      assert (0 < 2 ^ Z.log2 sz) by (apply Z.pow_pos_nonneg; lia). lia. }
    assert (Hb : Z.testbit (Z.land sz (sz - 1)) (Z.log2 sz) = true)
      by (rewrite Z.land_spec, Hb1, Hb2; reflexivity).
    rewrite Hland, Z.bits_0 in Hb. discriminate.
  - intros (n & Hn & ->). apply Z.eqb_eq.
    replace (2 ^ n - 1) with (Z.ones n) by (rewrite Z.ones_equiv; unfold Z.pred; lia).
    rewrite Z.land_ones by assumption. apply Z_mod_same_full.
Qed.

Lemma power_of_two_flag_witness :
  0 <= 48 < 2 ^ 64 /\
  (exists s evs, construct no_hw 1024 48 4800 4096 zeroed = OK (s, evs) /\
                 _objectSizeIsPowerOfTwo s = false) /\
  ~ exists n, 0 <= n /\ 48 = 2 ^ n.
Proof.
  split; [lia | ]. split.
  - eexists _, _. split; reflexivity.
  - intros Hex.
    apply (power_of_two_flag no_hw 1024 48 4800 4096 zeroed _ [] ltac:(lia) eq_refl) in Hex.
    discriminate Hex.
Defined.

(** ** More about [clear], [normalize] and [getSize] *)

(** X3.  [clear] is idempotent: a second [clear] changes nothing. *)
Theorem clear_idempotent (s s1 : Header) :
  clear s = OK s1 ->
  clear s1 = OK s1 /\
  _objectsFree s1 = _totalObjects s1 /\ _reapableObjects s1 = _totalObjects s1 /\
  _freeList s1 = [] /\ _position s1 = HL.align Alignment (_start s1) /\
  _pinned s1 = _pinned s.
Proof.
  unfold clear. destruct (isValid s) eqn:Hv; simpl; [ | discriminate].
  intros [= <-]. unfold isValid in *. simpl. rewrite Hv. simpl.
  repeat split; reflexivity.
Qed.

Lemma clear_idempotent_witness :
  clear (reaped demo_block) = OK demo_block /\ clear demo_block = OK demo_block.
Proof.
  split; [reflexivity | ].
  apply (clear_idempotent (reaped demo_block) demo_block eq_refl).
Defined.

(** X4.  Whatever the branch taken, [normalize] subtracts and [getSize]
    complements the remainder of the offset modulo [objectSize]. *)
Theorem mask_and_modulo_paths_agree (s : Header) (live : list Z) (ptr : Z) :
  reachable s live ->
  normalize s ptr = OK (u64 (ptr - u64 (ptr - _start s) mod getObjectSize s)) /\
  getSize s ptr = OK (u64 (getObjectSize s - u64 (ptr - _start s) mod getObjectSize s)).
Proof.
  intros Hreach. pose proof (inv_wf _ _ (reachable_with_Inv _ _ _ Hreach)) as Hwf.
  split; [apply (normalize_eq s Hwf) | apply (getSize_eq s Hwf)].
Qed.

Lemma mask_and_modulo_paths_agree_witness :
  reachable demo_block [] /\ normalize demo_block 4200 = OK 4160.
Proof.
  split; [apply demo_reachable | ].
  apply (mask_and_modulo_paths_agree demo_block [] 4200 demo_reachable).
Defined.

(** X5.  For a pointer into the slot region: [normalize] gives the base of the
    slot that holds it, [getSize] the bytes left up to the end of that
    slot, and the base is a fixed point of [normalize]. *)
Theorem normalize_and_getSize_in_slot (s : Header) (live : list Z) (ptr : Z) :
  reachable s live -> in_superblock s ptr ->
  exists base k,
    normalize s ptr = OK base /\
    0 <= k < getTotalObjects s /\ base = _start s + k * getObjectSize s /\
    base <= ptr < base + getObjectSize s /\
    getSize s ptr = OK (base + getObjectSize s - ptr) /\
    normalize s base = OK base /\ getSize s base = OK (getObjectSize s).
Proof.
  intros Hreach Hin. pose proof (inv_wf _ _ (reachable_with_Inv _ _ _ Hreach)) as Hwf.
  destruct (in_superblock_slot s Hwf ptr Hin) as (k & d & Hk & Hd & ->).
  exists (slot s k), k. unfold getTotalObjects, getObjectSize.
  split; [now apply normalize_slot | ].
  split; [assumption | ]. split; [reflexivity | ]. split; [lia | ].
  split.
  - rewrite (getSize_eq s Hwf).
    pose proof (slot_bounds s Hwf k Hk) as [Hlo Hhi].
    assert (Hoff : u64 (slot s k + d - _start s) = k * _objectSize s + d).
    { rewrite u64_small; unfold slot in *; destruct Hwf; [lia | nia]. }
    rewrite Hoff, (Z.add_comm (k * _objectSize s) d), Z_mod_plus_full, Z.mod_small by lia.
    f_equal. rewrite u64_small; destruct Hwf; lia.
  - split; [ | now apply getSize_slot].
    pose proof (normalize_slot s Hwf k 0 Hk) as Hn. rewrite Z.add_0_r in Hn.
    apply Hn. destruct Hwf. lia.
Qed.

Lemma normalize_and_getSize_in_slot_witness :
  reachable demo_block [] /\ in_superblock demo_block 4200 /\
  getSize demo_block 4200 = OK 24.
Proof.
  split; [apply demo_reachable | ].
  split; [unfold in_superblock; simpl; lia | ].
  destruct (normalize_and_getSize_in_slot demo_block [] 4200 demo_reachable)
    as (base & k & Hn & _ & _ & _ & Hg & _).
  - unfold in_superblock. simpl. lia.
  - assert (base = 4160) as -> by (vm_compute in Hn; congruence). exact Hg.
Defined.

(** ** Accounting *)

(** X6.  In every reachable state the free counter is the number of slots ahead
    of the Reap Cursor plus the length of the Free List, and every slot is
    free, live, or released while pinned and waiting for its [unpin]. *)
Theorem free_counter_accounting (s : Header) (live : list Z) :
  reachable s live ->
  getObjectsFree s = _reapableObjects s + Z.of_nat (length (_freeList s)) /\
  getObjectsFree s + Z.of_nat (length live)
  + Z.of_nat (length (deferred (_pinned s))) = getTotalObjects s.
Proof.
  intros Hreach. pose proof (reachable_with_Inv _ _ _ Hreach) as HI.
  pose proof (inv_counts _ _ HI) as Hcnt. pose proof (inv_free _ _ HI) as Hf.
  unfold getObjectsFree, getTotalObjects. lia.
Qed.

Lemma free_counter_accounting_witness :
  reachable pinned_block [4160; 4096] /\
  getObjectsFree pinned_block + 2 + 0 = getTotalObjects pinned_block.
Proof.
  split; [apply pinned_block_reachable | ].
  apply (free_counter_accounting pinned_block [4160; 4096] pinned_block_reachable).
Defined.

Lemma mallocs_snoc (n : nat) (s : Header) (ps : list Z) (s1 : Header) (p : Z) (s2 : Header) :
  mallocs n s = OK (ps, s1) -> malloc s1 = OK (p, s2) ->
  mallocs (S n) s = OK (ps ++ [p], s2).
Proof.
  revert s ps. induction n as [|n IH]; intros s ps Hms Hm.
  - simpl in Hms. injection Hms as <- <-. simpl. rewrite Hm. reflexivity.
  - simpl in Hms. destruct (malloc s) as [[q sq]|] eqn:Hq; simpl in Hms; [ | discriminate].
    destruct (mallocs n sq) as [[qs sqs]|] eqn:Hqs; simpl in Hms; [ | discriminate].
    injection Hms as <- <-.
    change (mallocs (S (S n)) s) with ('(p, s) ← malloc s; '(ps, s) ← mallocs (S n) s; OK (p :: ps, s)).
    rewrite Hq. cbn -[mallocs]. rewrite (IH sq qs Hqs Hm). reflexivity.
Qed.

(** X7.  A fresh superblock serves exactly [totalObjects] allocations: slot 0,
    slot 1, ... in address order, each a distinct address inside the
    buffer given to the constructor; the next call returns the null
    pointer, with the free counter at zero. *)
Theorem fresh_superblock_capacity (hw : Hardware) (this_ sz bufferSize start : Z)
    (s0 : Header) (evs : list Event) :
  0 <= sz < 2 ^ 64 -> 0 <= bufferSize < 2 ^ 64 ->
  0 < start -> start + bufferSize < 2 ^ 64 ->
  construct hw this_ sz bufferSize start zeroed = OK (s0, evs) ->
  exists s1,
    mallocs (S (Z.to_nat (getTotalObjects s0))) s0
    = OK (map (fun k => start + Z.of_nat k * sz) (seq 0 (Z.to_nat (getTotalObjects s0)))
          ++ [0], s1) /\
    NoDup (map (fun k => start + Z.of_nat k * sz) (seq 0 (Z.to_nat (getTotalObjects s0)))) /\
    (forall k, (k < Z.to_nat (getTotalObjects s0))%nat ->
               start <= start + Z.of_nat k * sz /\
               start + Z.of_nat k * sz + sz <= start + bufferSize) /\
    getObjectsFree s1 = 0.
Proof.
  intros Hsz Hbs Hst Hfit Hc.
  pose proof (construct_Inv _ _ _ _ _ _ _ Hsz Hbs Hst Hfit Hc) as HI0.
  destruct (construct_fields _ _ _ _ _ _ _ _ Hc)
    as (_ & _ & Hos & _ & Htot & Hr & Hf & Hstart & Hpos & Hpin & Hfl & _ & Hnz & _).
  unfold getTotalObjects, getObjectsFree.
  set (n := Z.to_nat (_totalObjects s0)).
  assert (Hav : avail s0 = map (fun k => start + Z.of_nat k * sz) (seq 0 n)).
  { unfold avail, reap_slots. now rewrite Hfl, app_nil_r, Hpos, Hos, Hr, <- Htot. }
  assert (Hlen : length (avail s0) = n) by (rewrite Hav, length_map, length_seq; reflexivity).
  destruct (mallocs_avail n s0 [] HI0 ltac:(lia)) as (s1 & Hms & Hav1 & HI1 & _ & Hc1).
  rewrite firstn_all2 in Hms, HI1 by lia.
  rewrite drop_ge in Hav1 by lia.
  pose proof (avail_nil _ _ HI1 Hav1) as Hnull.
  exists s1. split; [ | split; [ | split]].
  - rewrite <- Hav. apply (mallocs_snoc _ _ _ _ _ _ Hms Hnull).
  - rewrite <- Hav. pose proof (inv_nodup _ _ HI1) as Hnd. unfold owned in Hnd.
    rewrite app_nil_r in Hnd. apply NoDup_app in Hnd as (Hnd & _).
    rewrite (Permutation_rev (avail s0)). exact Hnd.
  - intros k Hk.
    assert (Hq : 0 <= u32 (bufferSize / sz) <= bufferSize / sz).
    { assert (0 <= bufferSize / sz) by (apply Z.div_pos; lia).
      unfold u32. split; [apply Z.mod_pos_bound; lia | apply Z.mod_le; lia]. }
    pose proof (Z.mul_div_le bufferSize sz ltac:(lia)) as Hmul.
    assert (Z.of_nat k + 1 <= _totalObjects s0) by lia. nia.
  - pose proof (inv_free _ _ HI1) as Hf1.
    unfold avail in Hav1. apply app_eq_nil in Hav1 as [Hreap Hfl1].
    unfold reap_slots in Hreap. apply map_eq_nil in Hreap.
    pose proof (inv_reap _ _ HI1) as Hr1.
    rewrite Hfl1 in Hf1. simpl in Hf1.
    destruct (Z.to_nat (_reapableObjects s1)) eqn:Hz; [lia | discriminate].
Qed.

Lemma fresh_superblock_capacity_witness :
  exists s1, mallocs 3 (mkHeader 1024 (Z.lxor MAGIC_NUMBER 1024) 64 true 2 2 2 4096 4096 zeroed 0 [])
             = OK ([4096; 4160; 0], s1).
Proof.
  destruct (fresh_superblock_capacity no_hw 1024 64 128 4096 _ []
              ltac:(lia) ltac:(lia) ltac:(lia) ltac:(lia) eq_refl) as (s1 & Hms & _).
  exists s1. exact Hms.
Defined.

(** ** Round trips *)

Lemma pushed_popped (s : Header) (p : Z) (l : list Z) :
  _freeList s = p :: l -> pushed (popped s l) p = s.
Proof.
  destruct s.
  unfold pushed, popped, set_objectsFree, set_freeList, FreeSLList.insert. simpl.
  intros ->. f_equal. lia.
Qed.

Lemma popped_pushed (s : Header) (p : Z) :
  popped (pushed s p) (_freeList s) = s.
Proof.
  destruct s.
  unfold pushed, popped, set_objectsFree, set_freeList, FreeSLList.insert. simpl.
  f_equal. lia.
Qed.

(** X8.  Allocating a slot and releasing it at once (the slot not pinned) gives
    the state back, when the slot came from the Free List or the superblock
    was fully free. *)
Theorem malloc_then_free_restores (s : Header) (live : list Z) (p : Z) (s1 : Header) :
  reachable s live -> malloc s = OK (p, s1) -> p <> 0 ->
  scan (fun e => entry_addr e =? p) (_pinned s) = None ->
  _reapableObjects s = 0 \/ getObjectsFree s = getTotalObjects s ->
  free s1 p = OK s.
Proof.
  intros Hreach Hm Hp Hscan Hcase. pose proof (reachable_with_Inv _ _ _ Hreach) as HI.
  unfold getObjectsFree, getTotalObjects in Hcase.
  pose proof (inv_wf _ _ HI) as Hwf.
  assert (Hl : p :: live ≡ₚ p :: live) by reflexivity.
  destruct (malloc_cases _ _ _ _ HI Hm)
    as [(Hr & -> & -> & _) | [(Hr & l & Hfl & -> & _) | (_ & _ & -> & _)]];
    [ | | contradiction].
  - destruct Hcase as [Hr0 | Hfull]; [lia | ].
    destruct (inv_full _ _ HI Hfull) as [Hrt Hfl].
    pose proof (Inv_reaped _ _ HI Hr) as HI1.
    rewrite (free_unpinned _ _ _ _ HI1 Hl Hscan). f_equal.
    unfold reclaimed. simpl.
    assert ((_objectsFree s - 1 + 1 =? _totalObjects s) = true) as -> by lia.
    change (cleared (reaped s)) with (cleared s).
    apply cleared_id; try assumption.
    pose proof (inv_pos _ _ HI) as Hpos. rewrite Hrt in Hpos. unfold slot in Hpos. lia.
  - pose proof (Inv_popped _ _ HI p l Hfl) as HI1.
    rewrite (free_unpinned _ _ _ _ HI1 Hl Hscan). f_equal.
    unfold reclaimed. simpl.
    assert (Hne : _objectsFree s <> _totalObjects s).
    { intros Hfull. destruct (inv_full _ _ HI Hfull) as [_ Hnil]. congruence. }
    assert ((_objectsFree s - 1 + 1 =? _totalObjects s) = false) as -> by lia.
    now apply pushed_popped.
Qed.

Lemma malloc_then_free_restores_witness :
  reachable demo_block [] /\ malloc demo_block = OK (4096, reaped demo_block) /\
  free (reaped demo_block) 4096 = OK demo_block.
Proof.
  split; [apply demo_reachable | ]. split; [reflexivity | ].
  apply (malloc_then_free_restores demo_block [] 4096 (reaped demo_block)
           demo_reachable eq_refl); [discriminate | reflexivity | right; reflexivity].
Defined.

(** X9.  The Free List is last in, first out: once the Reap Cursor is
    exhausted, releasing a live slot that is not pinned (others staying
    allocated) and allocating again returns the same address and gives the
    state back. *)
Theorem free_then_malloc_restores (s : Header) (live : list Z) (p : Z) :
  reachable s live -> p ∈ live ->
  scan (fun e => entry_addr e =? p) (_pinned s) = None ->
  _reapableObjects s = 0 -> getObjectsFree s + 1 <> getTotalObjects s ->
  free s p = OK (pushed s p) /\ malloc (pushed s p) = OK (p, s).
Proof.
  intros Hreach Hp Hscan Hr Hne. pose proof (reachable_with_Inv _ _ _ Hreach) as HI.
  unfold getObjectsFree, getTotalObjects in Hne.
  apply elem_of_Permutation in Hp as (live' & Hl).
  pose proof (free_unpinned _ _ _ _ HI Hl Hscan) as Hf.
  pose proof (Inv_free_unpinned _ _ _ _ HI Hl) as HI1.
  unfold reclaimed in Hf, HI1.
  assert ((_objectsFree s + 1 =? _totalObjects s) = false) as Hb by lia.
  rewrite Hb in Hf, HI1. split; [assumption | ].
  rewrite (malloc_pop _ _ HI1 p (_freeList s) Hr eq_refl).
  now rewrite popped_pushed.
Qed.

Lemma full_block_reachable : reachable full_block [4160; 4096].
Proof.
  exists (mkHeader 1024 (Z.lxor MAGIC_NUMBER 1024) 64 true 2 2 2 4096 4096 zeroed 0 []).
  split.
  - exists no_hw, 1024, 64, 128, 4096, []. repeat split; try lia; reflexivity.
  - apply (S_malloc _ _ _ (mkHeader 1024 (Z.lxor MAGIC_NUMBER 1024) 64 true 2 1 1
                             4096 4160 zeroed 0 []) _ 4160);
      [ | reflexivity | discriminate].
    apply (S_malloc _ _ _ (mkHeader 1024 (Z.lxor MAGIC_NUMBER 1024) 64 true 2 2 2
                             4096 4096 zeroed 0 []) [] 4096);
      [constructor | reflexivity | discriminate].
Qed.

Lemma free_then_malloc_restores_witness :
  reachable full_block [4160; 4096] /\
  malloc (pushed full_block 4096) = OK (4096, full_block).
Proof.
  split; [apply full_block_reachable | ].
  apply (free_then_malloc_restores full_block [4160; 4096] 4096 full_block_reachable);
    [right; left | reflexivity | reflexivity | discriminate].
Defined.

(** *** Pin and unpin *)

Lemma insert_same (tbl : list Z) (i : nat) :
  <[i := nth i tbl 0]> tbl = tbl.
Proof.
  revert i. induction tbl as [|e tbl IH]; intros [|i]; simpl; try reflexivity.
  now rewrite IH.
Qed.

Lemma insert_twice (tbl : list Z) (i : nat) (v w : Z) :
  <[i := w]> (<[i := v]> tbl) = <[i := w]> tbl.
Proof.
  revert i. induction tbl as [|e tbl IH]; intros [|i]; simpl; try reflexivity.
  now rewrite IH.
Qed.

Lemma pinned_addrs_nth (tbl : list Z) (k : nat) :
  nth k tbl 0 <> 0 -> entry_addr (nth k tbl 0) ∈ pinned_addrs tbl.
Proof.
  revert k. induction tbl as [|e tbl IH]; intros [|k] Hk; simpl in *; try congruence.
  - assert ((e =? 0) = false) as -> by lia. left.
  - destruct (e =? 0); [now apply IH | right; now apply IH].
Qed.

(** No cell names the slot of [p] when the caller keeps the discipline. *)
Lemma no_cell_names (s : Header) (live : list Z) (p : Z) (k : nat) :
  Inv s live -> in_superblock s p -> pin_fresh s p ->
  (entry_addr (nth k (_pinned s) 0) =? normalized s p) = false.
Proof.
  intros HI Hin Hfresh. pose proof (inv_wf _ _ HI) as Hwf.
  pose proof (normalized_nonzero s p Hwf Hin) as Hnz.
  apply Z.eqb_neq. intros Heq.
  destruct (Z.eq_dec (nth k (_pinned s) 0) 0) as [H0 | H0].
  - rewrite H0 in Heq. change (entry_addr 0) with 0 in Heq. congruence.
  - apply (Hfresh (normalized s p) (normalize_eq s Hwf p)).
    rewrite <- Heq. now apply pinned_addrs_nth.
Qed.

(** X10.  [pin] followed by [unpin] of a slot that had no cell in the Pin Table
    gives the state back. *)
Theorem pin_then_unpin_restores (s : Header) (live : list Z) (p : Z) (s1 : Header) :
  reachable s live -> in_superblock s p -> pin_fresh s p ->
  pin s p = OK s1 -> unpin s1 p = OK s.
Proof.
  intros Hreach Hin Hfresh Hpin. pose proof (reachable_with_Inv _ _ _ Hreach) as HI.
  pose proof (inv_wf _ _ HI) as Hwf. pose proof (inv_tbl_len _ _ HI) as Hlen.
  destruct (pinned_cell_names_slot s p Hwf Hin) as (Hnz & Haddr & _).
  destruct (lor_in_use _ (normalized_range s p)) as [Hrange Hodd].
  destruct (scan (fun e => e =? 0) (_pinned s)) as [j|] eqn:Hscan0;
    [ | rewrite (pin_full _ _ HI p Hscan0) in Hpin; discriminate].
  rewrite (pin_free_cell _ _ HI p j Hscan0) in Hpin. injection Hpin as <-.
  pose proof (Inv_pin _ _ HI p j Hscan0) as HI1.
  destruct (scan_Some _ _ _ Hscan0) as (Hj & Hzero & _). apply Z.eqb_eq in Hzero.
  set (s1 := set_pinned s (<[j := Z.lor (normalized s p) IN_USE]> (_pinned s))) in *.
  assert (Hscan1 : scan (fun e => entry_addr e =? normalized s1 p) (_pinned s1) = Some j).
  { change (normalized s1 p) with (normalized s p). apply scan_first; [assumption | | ].
    - unfold s1. simpl. rewrite nth_insert_eq by lia. rewrite Haddr. apply Z.eqb_refl.
    - intros k Hk. unfold s1. simpl. rewrite nth_insert_ne by lia.
      now apply (no_cell_names s live). }
  assert (Hflag : entry_flag (pinned_at s1 j) <> 0).
  { unfold pinned_at, s1. simpl. rewrite nth_insert_eq by lia.
    rewrite entry_flag_eq, Hodd. discriminate. }
  rewrite (unpin_in_use _ _ HI1 p j Hscan1 Hflag). f_equal.
  unfold s1. simpl. rewrite insert_twice, <- Hzero, insert_same.
  now destruct s.
Qed.

Lemma pin_then_unpin_restores_witness :
  reachable (reaped demo_block) [4096] /\
  pin (reaped demo_block) 4100
  = OK (set_pinned (reaped demo_block) (<[0%nat := 4097]> zeroed)) /\
  unpin (set_pinned (reaped demo_block) (<[0%nat := 4097]> zeroed)) 4100
  = OK (reaped demo_block).
Proof.
  split; [apply demo_reachable_1 | ]. split; [reflexivity | ].
  apply (pin_then_unpin_restores (reaped demo_block) [4096] 4100 _ demo_reachable_1);
    [unfold in_superblock; simpl; lia | | reflexivity].
  intros obj Hobj Hin. change (pinned_addrs (_pinned (reaped demo_block))) with (@nil Z) in Hin.
  inversion Hin.
Defined.

(** X11.  [unpin] of a slot that has no cell in the Pin Table is fatal; so is
    every [unpin] on a superblock on which nothing was pinned. *)
Theorem unpin_without_pin_is_fatal (s : Header) (live : list Z) (p : Z) :
  reachable s live -> in_superblock s p -> pin_fresh s p -> unpin s p = Fatal.
Proof.
  intros Hreach Hin Hfresh. pose proof (reachable_with_Inv _ _ _ Hreach) as HI.
  apply (unpin_no_cell _ _ HI p). apply scan_no_hit.
  intros k _. now apply (no_cell_names s live).
Qed.

Lemma unpin_without_pin_is_fatal_witness :
  reachable (reaped demo_block) [4096] /\ unpin (reaped demo_block) 4096 = Fatal.
Proof.
  split; [apply demo_reachable_1 | ].
  apply (unpin_without_pin_is_fatal (reaped demo_block) [4096] 4096 demo_reachable_1);
    [unfold in_superblock; simpl; lia | ].
  intros obj Hobj Hin. change (pinned_addrs (_pinned (reaped demo_block))) with (@nil Z) in Hin.
  inversion Hin.
Defined.

(** ** Releasing twice *)

(** X13.  Releasing a pinned live slot is deferred; releasing it a second time
    is fatal: the matching cell has lost its in-use flag and the assertion
    of [free] fails. *)
Theorem second_release_while_pinned_is_fatal (s : Header) (live live' : list Z)
    (p : Z) (i : nat) :
  reachable s live -> live ≡ₚ p :: live' ->
  scan (fun e => entry_addr e =? p) (_pinned s) = Some i ->
  exists s1, free s p = OK s1 /\ getObjectsFree s1 = getObjectsFree s /\
             _freeList s1 = _freeList s /\ free s1 p = Fatal.
Proof.
  intros Hreach Hl Hscan. pose proof (reachable_with_Inv _ _ _ Hreach) as HI.
  pose proof (inv_wf _ _ HI) as Hwf. pose proof (inv_tbl_len _ _ HI) as Hlen.
  destruct (released_facts _ _ _ _ HI Hl) as (Hp & Hal & _).
  pose proof (mod16_even _ Hal) as Hev.
  destruct (scan_Some _ _ _ Hscan) as (Hi & Hhit & Hbefore).
  set (s1 := set_pinned s (<[i := p]> (_pinned s))).
  exists s1.
  split; [apply (free_pinned _ _ _ _ HI Hl i Hscan) | ].
  split; [reflexivity | ]. split; [reflexivity | ].
  assert (Hv1 : isValid s1 = true) by exact (wf_valid _ Hwf).
  assert (Hscan1 : scan (fun e => entry_addr e =? p) (_pinned s1) = Some i).
  { apply scan_first; [assumption | | ].
    - unfold s1. simpl. rewrite nth_insert_eq by lia. rewrite entry_addr_eq by lia. lia.
    - intros k Hk. unfold s1. simpl. rewrite nth_insert_ne by lia. now apply Hbefore. }
  assert (Hcell : pinned_at s1 i = p).
  { unfold pinned_at, s1. simpl. apply nth_insert_eq. lia. }
  unfold free. unfold Alignment. rewrite Hal, Hv1, Hscan1, Hcell. simpl.
  rewrite land_1, Hev. reflexivity.
Qed.

Lemma second_release_while_pinned_is_fatal_witness :
  reachable pinned_block [4160; 4096] /\
  exists s1, free pinned_block 4096 = OK s1 /\ free s1 4096 = Fatal.
Proof.
  split; [apply pinned_block_reachable | ].
  destruct (second_release_while_pinned_is_fatal pinned_block [4160; 4096] [4160] 4096 0%nat
              pinned_block_reachable) as (s1 & Hf & _ & _ & Hf2).
  - apply Permutation_swap.
  - reflexivity.
  - exists s1. split; assumption.
Defined.

(** ** The validity stamp *)

Lemma lxor_cancel_l (m a b : Z) : Z.lxor m a = Z.lxor m b -> a = b.
Proof.
  intros H. apply (f_equal (Z.lxor m)) in H.
  now rewrite <- !Z.lxor_assoc, Z.lxor_nilpotent, !Z.lxor_0_l in H.
Qed.

(** X14.  The stamp ties a control block to its own address: the bytes of a
    valid block copied to another address form an invalid block, and every
    operation on it ends in its first assertion. *)
Theorem validity_stamp_detects_copies (s : Header) (a : Z) :
  isValid s = true -> a <> this s ->
  isValid (copied_to s a) = false /\
  malloc (copied_to s a) = Fatal /\
  clear (copied_to s a) = Fatal /\
  destroy (copied_to s a) = Fatal /\
  (forall p, free (copied_to s a) p = Fatal) /\
  (forall p, pin (copied_to s a) p = Fatal) /\
  (forall p, unpin (copied_to s a) p = Fatal) /\
  (forall p, normalize (copied_to s a) p = Fatal) /\
  (forall p, getSize (copied_to s a) p = Fatal).
Proof.
  intros Hv Ha.
  assert (Hc : isValid (copied_to s a) = false).
  { unfold isValid in *. simpl. apply Z.eqb_eq in Hv. apply Z.eqb_neq.
    intros Heq. rewrite Hv in Heq. apply lxor_cancel_l in Heq. congruence. }
  split; [assumption | ].
  split; [unfold malloc; now rewrite Hc | ].
  split; [unfold clear; now rewrite Hc | ].
  split; [unfold destroy, clear; now rewrite Hc | ].
  split; [intros p; unfold free; rewrite Hc; now destruct (p mod Alignment =? 0) | ].
  split; [intros p; unfold pin; now rewrite Hc | ].
  split; [intros p; unfold unpin; now rewrite Hc | ].
  split; [intros p; unfold normalize; now rewrite Hc | ].
  intros p; unfold getSize; now rewrite Hc.
Qed.

Lemma validity_stamp_detects_copies_witness :
  isValid demo_block = true /\ 2048 <> this demo_block /\
  malloc (copied_to demo_block 2048) = Fatal.
Proof.
  split; [reflexivity | ]. split; [discriminate | ].
  apply (validity_stamp_detects_copies demo_block 2048); [reflexivity | discriminate].
Defined.

(** ** The hardware region *)

(** X15.  Registration happens once, in the constructor, over the whole buffer
    with local-write and remote-write access, and only when a protection
    domain exists; the handle [rdma_get_mr] returns is that of the
    constructor in every state reached afterwards, and every allocation
    lies inside the buffer that was registered. *)
Theorem region_fixed_and_covers_allocations (hw : Hardware)
    (this_ sz bufferSize start : Z) (s0 : Header) (evs : list Event) :
  0 <= sz < 2 ^ 64 -> 0 <= bufferSize < 2 ^ 64 ->
  0 < start -> start + bufferSize < 2 ^ 64 ->
  construct hw this_ sz bufferSize start zeroed = OK (s0, evs) ->
  (rdma_get_pd hw <> 0 ->
   evs = [Ev_ibv_reg_mr (rdma_get_pd hw) start bufferSize 3] /\
   rdma_get_mr s0 = ibv_reg_mr hw (rdma_get_pd hw) start bufferSize 3) /\
  (rdma_get_pd hw = 0 -> evs = [] /\ rdma_get_mr s0 = 0) /\
  (forall s live, steps (fun _ _ => True) s0 [] s live ->
     rdma_get_mr s = rdma_get_mr s0 /\
     getObjectSize s = sz /\ getTotalObjects s = u32 (bufferSize / sz) /\
     forall p s', malloc s = OK (p, s') -> p <> 0 ->
                  start <= p /\ p + sz <= start + bufferSize /\
                  getSize s' p = OK sz).
Proof.
  intros Hsz Hbs Hst Hfit Hc.
  pose proof (construct_Inv _ _ _ _ _ _ _ Hsz Hbs Hst Hfit Hc) as HI0.
  pose proof (construct_events _ _ _ _ _ _ _ _ Hc) as Hev.
  destruct (construct_fields _ _ _ _ _ _ _ _ Hc)
    as (_ & _ & Hos & _ & Htot & _ & _ & Hstart & _ & _ & _ & Hmr & Hnz & _).
  unfold rdma_get_mr, getObjectSize, getTotalObjects.
  change (Z.lor IBV_ACCESS_LOCAL_WRITE IBV_ACCESS_REMOTE_WRITE) with 3 in *.
  split; [ | split].
  - intros Hpd. assert ((rdma_get_pd hw =? 0) = false) as Hb by lia.
    rewrite Hb in Hev, Hmr. auto.
  - intros Hpd. rewrite Hpd in Hev, Hmr. auto.
  - intros s live Hsteps.
    pose proof (steps_Inv _ _ _ _ _ HI0 Hsteps) as HI.
    destruct (steps_consts _ _ _ _ _ HI0 Hsteps) as (_ & _ & Hsz' & _ & Htot' & Hst' & Hmr').
    split; [assumption | ]. split; [congruence | ]. split; [congruence | ].
    intros p s' Hm Hp.
    destruct (malloc_slot _ _ _ _ HI Hm Hp) as (k & Hk & ->).
    destruct (malloc_consts _ _ _ _ HI Hm) as [Hcs _].
    pose proof (inv_wf _ _ HI) as Hwf.
    pose proof (slot_bounds s Hwf k Hk) as [Hlo Hhi].
    assert (Hq : 0 <= u32 (bufferSize / sz) <= bufferSize / sz).
    { assert (0 <= bufferSize / sz) by (apply Z.div_pos; lia).
      unfold u32. split; [apply Z.mod_pos_bound; lia | apply Z.mod_le; lia]. }
    pose proof (Z.mul_div_le bufferSize sz ltac:(lia)) as Hmul.
    pose proof (getSize_slot s Hwf k Hk) as Hg.
    assert (Es : _objectSize s = sz) by congruence.
    assert (Et : _totalObjects s = u32 (bufferSize / sz)) by congruence.
    assert (Est : _start s = start) by congruence.
    rewrite Es, Et, Est in Hhi. rewrite Est in Hlo.
    split; [lia | ]. split; [nia | ].
    rewrite <- Es. destruct Hcs as (H1 & H2 & H3 & H4 & _ & H6 & _).
    unfold getSize, isValid in *. rewrite H1, H2, H3, H4, H6. exact Hg.
Qed.

Lemma region_fixed_and_covers_allocations_witness :
  construct no_hw 1024 64 6400 4096 zeroed = OK (demo_block, []) /\
  rdma_get_mr (reaped demo_block) = rdma_get_mr demo_block.
Proof.
  split; [reflexivity | ].
  destruct (region_fixed_and_covers_allocations no_hw 1024 64 6400 4096 demo_block []
              ltac:(lia) ltac:(lia) ltac:(lia) ltac:(lia) eq_refl) as (_ & _ & Hall).
  apply (Hall (reaped demo_block) [4096]).
  apply (S_malloc _ _ _ demo_block [] 4096); [constructor | reflexivity | discriminate].
Defined.

(** ** The echo applications: [generate_packet] *)

Lemma insert_last (l : list Z) (x y : Z) :
  <[length l := y]> (l ++ [x]) = l ++ [y].
Proof. induction l as [|a l IH]; simpl; [reflexivity | now rewrite IH]. Qed.

Lemma c_string_repeat (n : nat) (c : Z) (rest : list Z) :
  c <> 0 -> c_string (repeat c n ++ 0 :: rest) = repeat c n.
Proof.
  intros Hc. induction n as [|n IH]; simpl; [reflexivity | ].
  assert ((c =? 0) = false) as -> by lia. now rewrite IH.
Qed.

(** X16.  For a packet size of at least one, on a block of exactly that size, the
    packet is [packet_size - 1] letters ['a'] followed by a NUL: a C string
    of length [packet_size - 1]. *)
Theorem generate_packet_contents (packet_size : Z) (buf : list Z) :
  1 <= packet_size < 2 ^ 32 -> Z.of_nat (length buf) = packet_size ->
  generate_packet packet_size (Some buf)
  = OK (repeat 97 (Z.to_nat (packet_size - 1)) ++ [0]) /\
  forall pkt, generate_packet packet_size (Some buf) = OK pkt ->
    Z.of_nat (length pkt) = packet_size /\
    c_string pkt = repeat 97 (Z.to_nat (packet_size - 1)).
Proof.
  intros Hn Hlen.
  assert (Hgen : generate_packet packet_size (Some buf)
                 = OK (repeat 97 (Z.to_nat (packet_size - 1)) ++ [0])).
  { unfold generate_packet, memset.
    assert ((Z.of_nat (length buf) <? packet_size) = false) as -> by lia.
    rewrite drop_ge, app_nil_r by lia.
    rewrite u32_small by lia. rewrite repeat_length.
    assert ((packet_size - 1 <? Z.of_nat (Z.to_nat packet_size)) = true) as ->
      by (apply Z.ltb_lt; lia).
    f_equal.
    replace (Z.to_nat packet_size) with (Z.to_nat (packet_size - 1) + 1)%nat by lia.
    rewrite repeat_app. simpl (repeat 97 1).
    rewrite <- (repeat_length 97 (Z.to_nat (packet_size - 1))) at 1.
    apply insert_last. }
  split; [assumption | ].
  intros pkt Hpkt. rewrite Hgen in Hpkt. injection Hpkt as <-.
  split.
  - rewrite length_app, repeat_length. simpl. lia.
  - apply c_string_repeat. discriminate.
Qed.

Lemma generate_packet_contents_witness :
  1 <= 4 < 2 ^ 32 /\ generate_packet 4 (Some [1; 2; 3; 4]) = OK [97; 97; 97; 0].
Proof.
  split; [lia | ].
  apply (generate_packet_contents 4 [1; 2; 3; 4]); [lia | reflexivity].
Defined.

(** X17.  With a packet size of zero the terminating store goes to index
    [2^32 - 1], the wrapped value of [packet_size - 1]: it is outside
    every block of fewer than [2^32] bytes. *)
Theorem generate_packet_zero_size (buf : list Z) :
  Z.of_nat (length buf) < 2 ^ 32 ->
  generate_packet 0 (Some buf) = Fatal /\ u32 (0 - 1) = 4294967295.
Proof.
  intros Hlen. split; [ | reflexivity].
  unfold generate_packet, memset.
  assert ((Z.of_nat (length buf) <? 0) = false) as -> by lia.
  simpl Z.to_nat. simpl repeat. rewrite drop_0. simpl app.
  change (u32 (0 - 1)) with 4294967295.
  assert ((4294967295 <? Z.of_nat (length buf)) = false) as -> by lia.
  reflexivity.
Qed.

Lemma generate_packet_zero_size_witness :
  Z.of_nat (length (@nil Z)) < 2 ^ 32 /\ generate_packet 0 (Some []) = Fatal.
Proof.
  split; [simpl; lia | ].
  apply (generate_packet_zero_size []). simpl. lia.
Defined.

(** ** Interior pointers *)

(** X18.  [pin] and [unpin] see only the slot: given any pointer into a slot they
    do what they do for the base of that slot. *)
Theorem pin_and_unpin_accept_interior_pointers (s : Header) (live : list Z) (ptr : Z) :
  reachable s live -> in_superblock s ptr ->
  exists base, normalize s ptr = OK base /\ base <= ptr < base + getObjectSize s /\
               pin s ptr = pin s base /\ unpin s ptr = unpin s base.
Proof.
  intros Hreach Hin. pose proof (inv_wf _ _ (reachable_with_Inv _ _ _ Hreach)) as Hwf.
  destruct (in_superblock_slot s Hwf ptr Hin) as (k & d & Hk & Hd & ->).
  pose proof (normalize_slot s Hwf k d Hk Hd) as Hn.
  pose proof (normalize_slot s Hwf k 0 Hk) as Hb. rewrite Z.add_0_r in Hb.
  specialize (Hb ltac:(destruct Hwf; lia)).
  exists (slot s k). unfold getObjectSize.
  split; [assumption | ]. split; [lia | ].
  unfold pin, unpin. now rewrite Hn, Hb.
Qed.

Lemma pin_and_unpin_accept_interior_pointers_witness :
  reachable (reaped demo_block) [4096] /\
  pin (reaped demo_block) 4159 = pin (reaped demo_block) 4096.
Proof.
  split; [apply demo_reachable_1 | ].
  destruct (pin_and_unpin_accept_interior_pointers (reaped demo_block) [4096] 4159
              demo_reachable_1) as (base & Hn & _ & Hp & _).
  - unfold in_superblock. simpl. lia.
  - assert (base = 4096) as -> by (vm_compute in Hn; congruence). exact Hp.
Defined.
